(** * Emotion hub ([app.py]): agent transcripts, classification, supervisor broadcast

    A shallow embedding of [app.py].  The module keeps one global list,
    [supervisors], of the supervisor websockets; [ws_agent] reads text from an
    agent, classifies it and sends an alert and a transcript to every
    supervisor; [ws_supervisor] appends its websocket to the list and takes it
    out again on disconnect.

    Conventions of the embedding:
    - a Python [str] is the list of its code points;
    - a Python [float] is an IEEE-754 binary64 value ([spec_float]);
    - a websocket object is identified by a number (objects compare by
      identity: Starlette's connection class keeps [object.__eq__]);
    - a Python exception is an explicit error result;
    - the outcome of every call into the outside world (the classifier
      pipeline, the clock, [send_text]) is an input of the model;
    - the values under ["label"] and ["score"] of a result item are a [str]
      and a [float], as the text-classification pipeline gives them;
    - [ws_agent_receive] is one turn of the agent loop as the handler runs
      it, no other handler changing the list in between; the section on a
      pass among the other handlers follows a pass through its suspensions
      and lets the other handlers run there, and [ws_agent_turn] is the
      turn made of such passes. *)

From Stdlib Require Import ZArith NArith SpecFloat Ascii String.
From stdpp Require Import base list strings pretty.

Local Open Scope N_scope.

(** ** Python strings *)

Definition codepoint := N.
Definition pystr := list codepoint.

(** A string literal of the source (ASCII). *)
Definition lit (s : string) : pystr :=
  map N_of_ascii (list_ascii_of_string s).

(** [str.isspace] on one character, the test [str.strip()] applies when it
    is called without argument: the Unicode white-space code points. *)
Definition is_space (c : codepoint) : bool :=
  ((0x09 <=? c) && (c <=? 0x0D)) ||
  ((0x1C <=? c) && (c <=? 0x20)) ||
  (c =? 0x85) || (c =? 0xA0) || (c =? 0x1680) ||
  ((0x2000 <=? c) && (c <=? 0x200A)) ||
  (c =? 0x2028) || (c =? 0x2029) || (c =? 0x202F) ||
  (c =? 0x205F) || (c =? 0x3000).

Fixpoint lstrip (s : pystr) : pystr :=
  match s with
  | [] => []
  | c :: s' => if is_space c then lstrip s' else s
  end.

Definition rstrip (s : pystr) : pystr := reverse (lstrip (reverse s)).

(** [data.strip()] *)
Definition strip (s : pystr) : pystr := rstrip (lstrip s).

(** Truth value of a string: [not text] holds for the empty string only. *)
Definition py_not (s : pystr) : bool :=
  match s with [] => true | _ => false end.

(** ** Python lists of websockets *)

Definition conn := nat.

(** [l.remove(x)]: takes out the first item equal to [x]; [None] stands for
    the [ValueError] raised when there is none. *)
Fixpoint list_remove (x : conn) (l : list conn) : option (list conn) :=
  match l with
  | [] => None
  | y :: l' =>
      if decide (y = x) then Some l'
      else match list_remove x l' with
           | Some r => Some (y :: r)
           | None => None
           end
  end.

(** [for d in dead: l.remove(d)]: stops at the first [ValueError]. *)
Fixpoint remove_each (dead : list conn) (l : list conn) : option (list conn) :=
  match dead with
  | [] => Some l
  | d :: dead' =>
      match list_remove d l with
      | Some l' => remove_each dead' l'
      | None => None
      end
  end.

(** ** Floats *)

Definition pyfloat := spec_float.

(** The literal [0.6]: the binary64 nearest to 6/10 is
    5404319552844595 * 2^-53. *)
Definition f0_6 : pyfloat := S754_finite false 5404319552844595 (-53).

(** The literal [0.0]. *)
Definition f0_0 : pyfloat := S754_zero false.

(** [a > b] on floats; false when either side is a NaN. *)
Definition float_gt (a b : pyfloat) : bool := SFltb b a.

(** A binary64 value, as every Python float is. *)
Definition is_binary64 (f : pyfloat) : bool := valid_binary 53 1024 f.

(** ** The classifier call (lines 46-58) *)

(** What [res[0]] can be: a dict, whose ["label"] and ["score"] entries may
    be missing, or a value that cannot be indexed with a string. *)
Inductive item :=
| ItemDict (label : option pystr) (score : option pyfloat)
| ItemOther.

(** What [emotion_pipe(text, truncation=True, max_length=256)] can do. *)
Inductive pipe_result :=
| PipeRaises
| PipeNotList
| PipeList (items : list item).

(** [d[key]] on the first item; [None] stands for the [KeyError] or
    [TypeError] raised. *)
Definition item_label (it : item) : option pystr :=
  match it with ItemDict l _ => l | ItemOther => None end.

Definition item_score (it : item) : option pyfloat :=
  match it with ItemDict _ s => s | ItemOther => None end.

(** The [try ... except Exception] block: the pair [(label, score)] the
    handler goes on with. *)
Definition classify (res : pipe_result) : pystr * pyfloat :=
  match res with
  | PipeRaises => (lit "unknown", f0_0)
  | PipeNotList => (lit "neutral", f0_0)
  | PipeList [] => (lit "neutral", f0_0)
  | PipeList (it :: _) =>
      match item_label it with
      | None => (lit "unknown", f0_0)
      | Some label =>
          match item_score it with
          | None => (lit "unknown", f0_0)
          | Some score => (label, score)
          end
      end
  end.

Local Close Scope N_scope.

(** ** Messages (lines 20-28 and 74-81) *)

(** The dict handed to [json.dumps]; the text put on the wire is a function
    of this dict alone. *)
Record event := Event {
  ev_type : pystr;
  ev_agentId : pystr;
  ev_text : pystr;
  ev_emotion : pystr;
  ev_score : pyfloat;
  ev_ts : Z
}.

(** [now] is the value of [int(time.time() * 1000)] at the call. *)
Definition make_alert (agent_id text label : pystr) (score : pyfloat)
    (now : Z) : event :=
  {| ev_type := lit "alert"; ev_agentId := agent_id; ev_text := text;
     ev_emotion := label; ev_score := score; ev_ts := now |}.

Definition transcript_msg (agent_id text label : pystr) (score : pyfloat)
    (now : Z) : event :=
  {| ev_type := lit "transcript"; ev_agentId := agent_id; ev_text := text;
     ev_emotion := label; ev_score := score; ev_ts := now |}.

(** The test of line 61. *)
Definition alert_labels : list pystr :=
  [lit "anger"; lit "fear"; lit "sadness"].

Definition is_alert (label : pystr) (score : pyfloat) : bool :=
  bool_decide (label ∈ alert_labels) && float_gt score f0_6.

(** ** Effects *)

(** What the handler does to the outside world, in order. *)
Inductive io :=
| Classify (text : pystr)
    (* emotion_pipe(text, truncation=True, max_length=256) was called *)
| Send (sup : conn) (msg : event) (ok : bool).
    (* sup.send_text(json.dumps(msg)) was awaited; ok: it did not raise *)

(** ** One broadcast pass (lines 64-71 and 82-89) *)

(** The [for sup in supervisors] loop.  [raises k] tells whether the [k]-th
    [send_text] of the pass raises.  Returns the sends and the list [dead]. *)
Fixpoint send_all (raises : nat → bool) (msg : event) (sups : list conn)
    : list io * list conn :=
  match sups with
  | [] => ([], [])
  | sup :: rest =>
      let '(log, dead) := send_all (raises ∘ S) msg rest in
      if raises 0 then (Send sup msg false :: log, sup :: dead)
      else (Send sup msg true :: log, dead)
  end.

(** The loop followed by [for d in dead: supervisors.remove(d)], no other
    handler running while a send is suspended.  The first component is the
    new list, [None] when a [remove] raised [ValueError]. *)
Definition broadcast (raises : nat → bool) (msg : event)
    (supervisors : list conn) : option (list conn) * list io :=
  let '(log, dead) := send_all raises msg supervisors in
  (remove_each dead supervisors, log).

(** ** The agent handler (lines 39-93) *)

(** What the outside world answers during one turn of the [while] loop. *)
Record env := Env {
  emotion_pipe : pystr → pipe_result;
  clock_alert : Z;                   (* time read inside make_alert *)
  clock_transcript : Z;              (* time read for transcript_msg *)
  alert_raises : nat → bool;         (* sends of the alert pass *)
  transcript_raises : nat → bool     (* sends of the transcript pass *)
}.

Inductive result :=
| Done (supervisors : list conn) (log : list io)
| Raised (log : list io).            (* an exception left the handler *)

(** One turn of the loop on the received [data], no other handler running
    while a send is suspended. *)
Definition ws_agent_receive (e : env) (agent_id data : pystr)
    (supervisors : list conn) : result :=
  let text := strip data in
  if py_not text then Done supervisors []
  else
    let '(label, score) := classify (emotion_pipe e text) in
    let '(sups1, log1) :=
      if is_alert label score then
        broadcast (alert_raises e)
          (make_alert agent_id text label score (clock_alert e)) supervisors
      else (Some supervisors, []) in
    match sups1 with
    | None => Raised (Classify text :: log1)
    | Some sups1 =>
        let '(sups2, log2) :=
          broadcast (transcript_raises e)
            (transcript_msg agent_id text label score (clock_transcript e))
            sups1 in
        match sups2 with
        | None => Raised (Classify text :: log1 ++ log2)
        | Some sups2 => Done sups2 (Classify text :: log1 ++ log2)
        end
    end.

(** The handler from [accept] to the disconnect, no other handler changing
    the list in the meantime: [inputs] are the texts received, each with
    the answers of the outside world for its turn. *)
Fixpoint ws_agent (agent_id : pystr) (inputs : list (env * pystr))
    (supervisors : list conn) : result :=
  match inputs with
  | [] => Done supervisors []
  | (e, data) :: rest =>
      match ws_agent_receive e agent_id data supervisors with
      | Raised log => Raised log
      | Done sups log =>
          match ws_agent agent_id rest sups with
          | Done sups' log' => Done sups' (log ++ log')
          | Raised log' => Raised (log ++ log')
          end
      end
  end.

(** ** The supervisor handler (lines 102-111) *)

(** [supervisors.append(websocket)] *)
Definition ws_supervisor_connect (websocket : conn)
    (supervisors : list conn) : list conn :=
  supervisors ++ [websocket].

(** The [except WebSocketDisconnect] branch; [None] when [remove] raised. *)
Definition ws_supervisor_disconnect (websocket : conn)
    (supervisors : list conn) : option (list conn) :=
  if bool_decide (websocket ∈ supervisors)
  then list_remove websocket supervisors
  else Some supervisors.

(** ** The registry and its history *)

(** The global list together with two history variables: the websockets
    whose [append] has run and the websockets a [remove] has taken out. *)
Record hub := Hub {
  supervisors : list conn;
  registered : list conn;
  removed : list conn
}.

(** Line 18. *)
Definition init : hub := Hub [] [] [].

(** The operations on the list.  [Connect] is line 103, run once by each
    call of [ws_supervisor] on the websocket of that call; [Disconnect] is
    lines 109-110; [Broadcast] is one pass (lines 64-71 or 82-89). *)
Inductive op :=
| Connect (websocket : conn)
| Disconnect (websocket : conn)
| Broadcast (raises : nat → bool) (msg : event).

(** [None]: the operation cannot take place here (a [Connect] of a
    websocket that has been through it before) or ends in [ValueError]. *)
Definition hub_apply (o : op) (h : hub) : option hub :=
  match o with
  | Connect websocket =>
      if bool_decide (websocket ∈ registered h) then None
      else Some (Hub (ws_supervisor_connect websocket (supervisors h))
                     (websocket :: registered h) (removed h))
  | Disconnect websocket =>
      match ws_supervisor_disconnect websocket (supervisors h) with
      | Some sups' =>
          Some (Hub sups' (registered h)
                  (if bool_decide (websocket ∈ supervisors h)
                   then websocket :: removed h else removed h))
      | None => None
      end
  | Broadcast raises msg =>
      match (broadcast raises msg (supervisors h)).1 with
      | Some sups' =>
          Some (Hub sups' (registered h)
                  ((send_all raises msg (supervisors h)).2 ++ removed h))
      | None => None
      end
  end.

Fixpoint hub_run (ops : list op) (h : hub) : option hub :=
  match ops with
  | [] => Some h
  | o :: ops' =>
      match hub_apply o h with
      | Some h' => hub_run ops' h'
      | None => None
      end
  end.

Definition reachable (h : hub) : Prop := ∃ ops, hub_run ops init = Some h.

(** No entry twice; the entries are the registered websockets that no
    [remove] has taken out. *)
Definition registry_inv (h : hub) : Prop :=
  NoDup (supervisors h) ∧
  (∀ c, c ∈ supervisors h ↔ c ∈ registered h ∧ c ∉ removed h) ∧
  (∀ c, c ∈ removed h → c ∈ registered h).

(** ** A broadcast pass among the other handlers *)

(** The handlers are coroutines of one event loop: a handler runs alone
    until it reaches an [await] that suspends it, and the others may run
    then.  Within a pass the only [await] is the send (lines 67 and 85);
    the list iterator of [for sup in supervisors] keeps an index into the
    live list and stops when the index reaches its current length.

    [Running sups i dead sup log]: the pass is suspended in the send to
    [sup], the iterator has moved on to index [i].  [Finished sups log]:
    the loop and the removals are over.  [Failed log]: a [remove] raised
    [ValueError], which leaves [ws_agent]. *)
Inductive config :=
| Running (sups : list conn) (i : nat) (dead : list conn) (sup : conn)
    (log : list io)
| Finished (sups : list conn) (log : list io)
| Failed (log : list io).

(** What the event loop does next: it resumes the pass, the send having
    returned ([ok]) or raised, or it runs another handler up to the point
    where that handler changes the list. *)
Inductive sched :=
| SendReturns (ok : bool)
| Connects (websocket : conn)
| Disconnects (websocket : conn).

(** The pass from the head of the loop, at index [i], to its next
    suspension or to its end. *)
Definition pass_resume (sups : list conn) (i : nat) (dead : list conn)
    (log : list io) : config :=
  match sups !! i with
  | Some sup => Running sups (S i) dead sup log
  | None =>
      match remove_each dead sups with
      | Some sups' => Finished sups' log
      | None => Failed log
      end
  end.

Definition pass_start (sups : list conn) : config := pass_resume sups 0 [] [].

(** One scheduling step; [None] when the pass is over. *)
Definition pass_step (msg : event) (ev : sched) (c : config)
    : option config :=
  match c with
  | Running sups i dead sup log =>
      match ev with
      | SendReturns ok =>
          Some (pass_resume sups i (if ok then dead else dead ++ [sup])
                  (log ++ [Send sup msg ok]))
      | Connects websocket =>
          Some (Running (ws_supervisor_connect websocket sups) i dead sup log)
      | Disconnects websocket =>
          match ws_supervisor_disconnect websocket sups with
          | Some sups' => Some (Running sups' i dead sup log)
          | None => None
          end
      end
  | Finished _ _ => None
  | Failed _ => None
  end.

Fixpoint pass_run (msg : event) (sch : list sched) (c : config)
    : option config :=
  match sch with
  | [] => Some c
  | ev :: sch' =>
      match pass_step msg ev c with
      | Some c' => pass_run msg sch' c'
      | None => None
      end
  end.

(** The schedule in which the pass runs undisturbed on a list of [n]
    entries, the sends answering as [raises] tells. *)
Definition undisturbed (raises : nat → bool) (from n : nat) : list sched :=
  map (λ k, SendReturns (negb (raises k))) (seq from n).

(** ** One turn of the agent loop among the other handlers *)

(** Lines 42-89 on the received [data], [supervisors] being the global list
    as it stands when [receive_text] returns.  The classifier call is
    synchronous and nothing is awaited between the end of the alert pass
    and the start of the transcript pass, so the other handlers run only
    while a send is suspended: [sch_alert] and [sch_transcript] tell what
    the event loop does during the alert pass and during the transcript
    pass.  The outcomes of the sends are in the schedules; the fields
    [alert_raises] and [transcript_raises] of [e] are not read.  A
    [Disconnects] event also stands for a [remove] that the pass of
    another agent runs at line 71 or 89: on a websocket that is in the
    list the two do the same, and on one that is not neither changes the
    list.

    A [ValueError] raised by line 71 or line 89 leaves [ws_agent], whose
    [try] catches [WebSocketDisconnect] only: the result is [Raised].
    [None]: the schedules do not describe the turn (a pass is left
    suspended, or events are given for a pass that is over or does not
    take place). *)
Definition ws_agent_turn (e : env) (agent_id data : pystr)
    (sch_alert sch_transcript : list sched) (supervisors : list conn)
    : option result :=
  let text := strip data in
  if py_not text then
    match sch_alert, sch_transcript with
    | [], [] => Some (Done supervisors [])
    | _, _ => None
    end
  else
    let '(label, score) := classify (emotion_pipe e text) in
    let alert_pass :=
      if is_alert label score then
        pass_run (make_alert agent_id text label score (clock_alert e))
          sch_alert (pass_start supervisors)
      else
        match sch_alert with
        | [] => Some (Finished supervisors [])
        | _ => None
        end in
    match alert_pass with
    | Some (Finished sups1 log1) =>
        match pass_run
                (transcript_msg agent_id text label score (clock_transcript e))
                sch_transcript (pass_start sups1) with
        | Some (Finished sups2 log2) =>
            Some (Done sups2 (Classify text :: log1 ++ log2))
        | Some (Failed log2) => Some (Raised (Classify text :: log1 ++ log2))
        | _ => None
        end
    | Some (Failed log1) =>
        match sch_transcript with
        | [] => Some (Raised (Classify text :: log1))
        | _ => None
        end
    | _ => None
    end.


(** ** The handlers from connect to disconnect *)

(** Line 38: [f"agent-{int(time.time()*1000) % 100000}"], with [now] the
    value of [int(time.time()*1000)].  [%] takes the sign of the divisor,
    as [Z.modulo] does. *)
Definition agent_id_of (now : Z) : pystr :=
  lit "agent-" ++ lit (pretty (now `mod` 100000)%Z).

(** [ws_agent] with the identifier it gives itself at [accept]. *)
Definition ws_agent_session (now : Z) (inputs : list (env * pystr))
    (supervisors : list conn) : result :=
  ws_agent (agent_id_of now) inputs supervisors.

(** Lines 105-107: what a supervisor sends is read and dropped. *)
Fixpoint idle_read (inbound : list pystr) (supervisors : list conn)
    : list conn :=
  match inbound with
  | [] => supervisors
  | _ :: rest => idle_read rest supervisors
  end.

(** [ws_supervisor] from [accept] to the disconnect, no other handler
    running in between: [inbound] are the texts the supervisor sends. *)
Definition ws_supervisor (websocket : conn) (inbound : list pystr)
    (supervisors : list conn) : option (list conn) :=
  ws_supervisor_disconnect websocket
    (idle_read inbound (ws_supervisor_connect websocket supervisors)).

(** ** Auxiliary notions for the statements *)

(** The sends of a pass: one per entry of the list, in the order of the
    list, whatever the earlier sends did. *)
Definition attempts (raises : nat → bool) (msg : event) (sups : list conn)
    : list io :=
  imap (λ k sup, Send sup msg (negb (raises k))) sups.

Definition blank (s : pystr) : Prop := Forall (λ c, is_space c = true) s.

Definition log_of (r : result) : list io :=
  match r with Done _ log => log | Raised log => log end.

(** The list as it stands when the transcript pass starts. *)
Definition after_alert (e : env) (agent_id text label : pystr)
    (score : pyfloat) (supervisors : list conn) : option (list conn) :=
  if is_alert label score then
    (broadcast (alert_raises e)
       (make_alert agent_id text label score (clock_alert e)) supervisors).1
  else Some supervisors.

Definition alert_log (e : env) (agent_id text label : pystr)
    (score : pyfloat) (supervisors : list conn) : list io :=
  if is_alert label score then
    attempts (alert_raises e)
      (make_alert agent_id text label score (clock_alert e)) supervisors
  else [].



(** The websocket a send goes to and the text a classifier call is made
    on. *)
Definition send_target (x : io) : option conn :=
  match x with Send sup _ _ => Some sup | Classify _ => None end.

Definition classified (x : io) : option pystr :=
  match x with Classify text => Some text | Send _ _ _ => None end.

(** The websockets a schedule registers, in order, and the test that an
    event of a schedule is not a disconnect. *)
Definition connected (sch : list sched) : list conn :=
  omap (λ ev, match ev with Connects ws => Some ws | _ => None end) sch.

Definition not_disconnect (ev : sched) : bool :=
  match ev with Disconnects _ => false | _ => true end.

Definition cfg_log (c : config) : list io :=
  match c with
  | Running _ _ _ _ log => log
  | Finished _ log => log
  | Failed log => log
  end.

(** What holds of a pass that no disconnect has disturbed, [base] being
    the initial list followed by the websockets registered since: the
    sends made so far went to the entries before the current one, and the
    websockets marked dead are among them. *)
Definition pass_inv (base : list conn) (c : config) : Prop :=
  match c with
  | Running l i dead sup log =>
      l = base ∧
      ∃ pre post, l = pre ++ sup :: post ∧ i = S (length pre) ∧
        omap send_target log = pre ∧ dead ⊆+ pre
  | Finished sups' log =>
      omap send_target log = base ∧ sups' `sublist_of` base
  | Failed _ => False
  end.

(** A decimal digit. *)
Definition is_digit (c : codepoint) : bool :=
  ((48 <=? c) && (c <=? 57))%N.

(** The websockets a pass has sent to or is sending to. *)
Definition visited (c : config) : list conn :=
  match c with
  | Running _ _ _ sup log => omap send_target log ++ [sup]
  | Finished _ log => omap send_target log
  | Failed log => omap send_target log
  end.

(** What holds of a pass under any schedule, [known] being the initial
    list followed by the websockets registered since: no websocket is
    visited twice, and the entries still ahead of the iterator have not
    been visited. *)
Definition pass_once (known : list conn) (c : config) : Prop :=
  NoDup (visited c) ∧
  (∀ x, x ∈ visited c → x ∈ known) ∧
  match c with
  | Running l i _ _ _ =>
      NoDup l ∧ (∀ x, x ∈ l → x ∈ known) ∧
      (∀ x, x ∈ drop i l → x ∉ visited c)
  | Finished _ _ => True
  | Failed _ => True
  end.

(** The websockets to which a send of the log raised, in order. *)
Definition failed_targets (log : list io) : list conn :=
  omap (λ x, match x with
             | Send sup _ false => Some sup
             | _ => None
             end) log.

(** What holds of a pass under any schedule, [known] being the initial
    list followed by the websockets registered since: every entry of the
    log is a send of [msg] to a known websocket, and the list holds known
    websockets only. *)
Definition pass_known (msg : event) (known : list conn) (c : config) : Prop :=
  (∀ x, x ∈ cfg_log c → ∃ sup ok, x = Send sup msg ok ∧ sup ∈ known) ∧
  match c with
  | Running l _ _ sup _ => sup ∈ known ∧ ∀ x, x ∈ l → x ∈ known
  | Finished l _ => ∀ x, x ∈ l → x ∈ known
  | Failed _ => True
  end.

(** The marks of a pass: [dead] holds the websockets whose send raised,
    and a pass that ends normally leaves a list without repetition from
    which they are gone. *)
Definition pass_marks (c : config) : Prop :=
  match c with
  | Running _ _ dead _ log => dead = failed_targets log
  | Finished l log => NoDup l ∧ ∀ sup, sup ∈ failed_targets log → sup ∉ l
  | Failed _ => True
  end.

(** What holds in addition of a pass that no disconnect has disturbed:
    [dead] holds the websockets whose send raised, and the pass leaves
    the websockets of [base] less these. *)
Definition pass_keeps (base : list conn) (c : config) : Prop :=
  match c with
  | Running _ _ dead _ log => dead = failed_targets log
  | Finished sups' log => base ≡ₚ failed_targets log ++ sups'
  | Failed _ => False
  end.

(** ** Sample inputs *)

(** 0.85 and 0.99 as binary64. *)
Definition f0_85 : pyfloat := S754_finite false 7656119366529843 (-53).
Definition f0_99 : pyfloat := S754_finite false 8917127262193582 (-53).

Definition furious : pystr := lit "I am furious about this bill".
Definition weather : pystr := lit "The weather is nice today".
Definition agent7 : pystr := lit "agent-7".

Definition alert_furious : event :=
  make_alert agent7 furious (lit "anger") f0_85 1000.
Definition transcript_furious : event :=
  transcript_msg agent7 furious (lit "anger") f0_85 1001.
Definition transcript_weather : event :=
  transcript_msg agent7 weather (lit "joy") f0_99 1001.

(** A classifier answering [[{'label': label, 'score': score}]]. *)
Definition answers (label : string) (score : pyfloat) : pystr → pipe_result :=
  λ _, PipeList [ItemDict (Some (lit label)) (Some score)].

(** Every send goes through. *)
Definition env_anger : env :=
  Env (answers "anger" f0_85) 1000 1001 (λ _, false) (λ _, false).


Definition env_joy : env :=
  Env (answers "joy" f0_99) 1000 1001 (λ _, false) (λ _, false).



(** * Properties *)

(** ** Lists *)

Lemma filter_all {A} (P : A → Prop) `{!∀ x, Decision (P x)} (l : list A) :
  Forall P l → filter P l = l.
Proof.
  induction 1 as [|x l Hx _ IH]; [done|].
  by rewrite filter_cons_True, IH.
Qed.

Lemma list_remove_Some x l :
  x ∈ l → ∃ l', list_remove x l = Some l' ∧ l ≡ₚ x :: l'.
Proof.
  induction l as [|y l IH]; intros Hin.
  - by apply elem_of_nil in Hin.
  - simpl. destruct (decide (y = x)) as [->|Hne].
    + by exists l.
    + apply elem_of_cons in Hin as [?|Hin]; [congruence|].
      destruct (IH Hin) as (l' & -> & Hp).
      exists (y :: l'). split; [done|].
      rewrite Hp. apply Permutation_swap.
Qed.

Lemma list_remove_None x l : x ∉ l → list_remove x l = None.
Proof.
  induction l as [|y l IH]; intros Hin; [done|].
  simpl. apply not_elem_of_cons in Hin as [Hne Hin].
  destruct (decide (y = x)); [congruence|]. by rewrite IH.
Qed.

Lemma list_remove_sublist x l l' : list_remove x l = Some l' → l' `sublist_of` l.
Proof.
  revert l'. induction l as [|y l IH]; intros l'; simpl; [done|].
  destruct (decide (y = x)).
  - intros [= <-]. by apply sublist_cons.
  - destruct (list_remove x l) as [r|]; [|done].
    intros [= <-]. apply sublist_skip. by apply IH.
Qed.

(** On a list without repetition [remove] leaves no copy behind. *)
Lemma list_remove_NoDup x l l' :
  NoDup l → list_remove x l = Some l' → l' = filter (λ y, y ≠ x) l.
Proof.
  revert l'. induction l as [|y l IH]; intros l' Hnd; simpl; [done|].
  apply NoDup_cons in Hnd as [Hy Hnd].
  destruct (decide (y = x)) as [->|Hne].
  - intros [= <-]. rewrite filter_cons_False; [|by intros []].
    symmetry. apply filter_all, Forall_forall. by intros z Hz ->.
  - destruct (list_remove x l) as [r|] eqn:Hr; [|done].
    intros [= <-]. rewrite filter_cons_True; [|done]. f_equal. by apply IH.
Qed.

Lemma remove_each_submseteq dead l :
  dead ⊆+ l → ∃ l', remove_each dead l = Some l' ∧ l ≡ₚ dead ++ l'.
Proof.
  revert l. induction dead as [|d dead IH]; intros l Hsub; simpl.
  - by exists l.
  - assert (d ∈ l) as Hin.
    { eapply elem_of_submseteq; [|exact Hsub]. apply elem_of_cons; by left. }
    destruct (list_remove_Some d l Hin) as (l1 & -> & Hp).
    destruct (IH l1) as (l' & -> & Hp').
    { rewrite Hp in Hsub. by apply (submseteq_app_inv_l _ _ [d]). }
    exists l'. split; [done|]. by rewrite Hp, Hp'.
Qed.

Lemma remove_each_sublist dead l l' :
  remove_each dead l = Some l' → l' `sublist_of` l.
Proof.
  revert l. induction dead as [|d dead IH]; intros l; simpl.
  - by intros [= <-].
  - destruct (list_remove d l) as [l1|] eqn:H1; [|done].
    intros H2. etrans; [by apply IH|]. by eapply list_remove_sublist.
Qed.

Lemma remove_each_NoDup dead l l' :
  NoDup l → remove_each dead l = Some l' → l' = filter (λ y, y ∉ dead) l.
Proof.
  revert l. induction dead as [|d dead IH]; intros l Hnd; simpl.
  - intros [= <-]. symmetry. apply filter_all, Forall_forall.
    intros z _. apply not_elem_of_nil.
  - destruct (list_remove d l) as [l1|] eqn:H1; [|done].
    intros H2. pose proof (list_remove_NoDup _ _ _ Hnd H1) as ->.
    apply IH in H2; [|by apply NoDup_filter]. rewrite H2.
    rewrite list_filter_filter. apply list_filter_iff.
    intros z. rewrite not_elem_of_cons. tauto.
Qed.

(** ** The send loop *)

Lemma send_all_log raises msg sups :
  (send_all raises msg sups).1 = attempts raises msg sups.
Proof.
  revert raises. induction sups as [|sup rest IH]; intros raises; [done|].
  simpl. specialize (IH (raises ∘ S)).
  destruct (send_all (raises ∘ S) msg rest) as [log dead]. simpl in IH.
  unfold attempts. simpl. destruct (raises 0); simpl; f_equal; exact IH.
Qed.

Lemma send_all_dead_sublist raises msg sups :
  (send_all raises msg sups).2 `sublist_of` sups.
Proof.
  revert raises. induction sups as [|sup rest IH]; intros raises; [done|].
  simpl. specialize (IH (raises ∘ S)).
  destruct (send_all (raises ∘ S) msg rest) as [log dead]. simpl in IH.
  destruct (raises 0); simpl; [by apply sublist_skip | by apply sublist_cons].
Qed.

Lemma send_all_dead_elem raises msg sups sup :
  sup ∈ (send_all raises msg sups).2 ↔
  ∃ k, sups !! k = Some sup ∧ raises k = true.
Proof.
  revert raises. induction sups as [|s rest IH]; intros raises; simpl.
  - split; [by intros ?%elem_of_nil | by intros (k & ? & _)].
  - specialize (IH (raises ∘ S)).
    destruct (send_all (raises ∘ S) msg rest) as [log dead]. simpl in IH.
    destruct (raises 0) eqn:H0; simpl.
    + rewrite elem_of_cons, IH. split.
      * intros [->|(k & Hk & Hr)]; [by exists 0 | by exists (S k)].
      * intros ([|k] & Hk & Hr); simpl in *; [left; congruence|].
        right. by exists k.
    + rewrite IH. split.
      * intros (k & Hk & Hr). by exists (S k).
      * intros ([|k] & Hk & Hr); simpl in *; [congruence|]. by exists k.
Qed.

Lemma attempts_lookup raises msg sups k sup :
  sups !! k = Some sup →
  attempts raises msg sups !! k = Some (Send sup msg (negb (raises k))).
Proof. intros H. unfold attempts. by rewrite list_lookup_imap, H. Qed.

Lemma attempts_elem raises msg sups x :
  x ∈ attempts raises msg sups ↔
  ∃ k sup, sups !! k = Some sup ∧ x = Send sup msg (negb (raises k)).
Proof.
  unfold attempts. rewrite elem_of_lookup_imap.
  split; intros (k & sup & ? & ?); by exists k, sup.
Qed.

Lemma length_attempts raises msg sups :
  length (attempts raises msg sups) = length sups.
Proof. apply length_imap. Qed.

(** A pass never ends in a [ValueError]: every websocket put in [dead] is
    still in the list when it is taken out. *)
Lemma broadcast_Some raises msg sups :
  ∃ sups',
    broadcast raises msg sups = (Some sups', attempts raises msg sups) ∧
    sups ≡ₚ (send_all raises msg sups).2 ++ sups' ∧
    sups' `sublist_of` sups.
Proof.
  unfold broadcast.
  pose proof (send_all_log raises msg sups) as Hlog.
  pose proof (send_all_dead_sublist raises msg sups) as Hsub.
  destruct (send_all raises msg sups) as [log dead]. simpl in *. subst log.
  destruct (remove_each_submseteq dead sups) as (sups' & Hr & Hp).
  { by apply sublist_submseteq. }
  exists sups'. rewrite Hr. split_and!; [done|done|].
  by eapply remove_each_sublist.
Qed.

Lemma broadcast_NoDup raises msg sups sups' log :
  NoDup sups → broadcast raises msg sups = (Some sups', log) →
  sups' = filter (λ c, c ∉ (send_all raises msg sups).2) sups.
Proof.
  unfold broadcast. destruct (send_all raises msg sups) as [l dead]. simpl.
  intros Hnd [= Hr _]. by eapply remove_each_NoDup.
Qed.


(** ** [strip] *)

Lemma lstrip_nil s : lstrip s = [] ↔ blank s.
Proof.
  unfold blank. induction s as [|c s IH]; simpl.
  - split; [constructor|done].
  - destruct (is_space c) eqn:Hc.
    + rewrite IH. split; [by constructor|]. by intros [_ ?]%Forall_cons.
    + split; [done|]. intros [? _]%Forall_cons. congruence.
Qed.

Lemma lstrip_blank_or_head s :
  lstrip s = [] ∨ ∃ c s', lstrip s = c :: s' ∧ is_space c = false.
Proof.
  induction s as [|c s IH]; simpl; [by left|].
  destruct (is_space c) eqn:Hc; [done|]. right. by exists c, s.
Qed.

(** [data.strip()] is empty exactly when [data] is empty or holds white
    space only. *)
Lemma strip_nil s : strip s = [] ↔ blank s.
Proof.
  unfold strip, rstrip. split.
  - intros H. apply (f_equal reverse) in H.
    rewrite reverse_involutive, reverse_nil in H.
    apply lstrip_nil in H. unfold blank in H. rewrite Forall_reverse in H.
    destruct (lstrip_blank_or_head s) as [E|(c & s' & E & Hc)].
    + by apply lstrip_nil.
    + rewrite E in H. apply Forall_cons in H as [? _]. congruence.
  - intros H. apply lstrip_nil in H. by rewrite H.
Qed.

Lemma py_not_true s : py_not s = true ↔ s = [].
Proof. by destruct s. Qed.

(** ** Shape of one turn of the agent loop *)

Lemma ws_agent_receive_blank e agent_id data sups :
  blank data → ws_agent_receive e agent_id data sups = Done sups [].
Proof.
  intros H%strip_nil. unfold ws_agent_receive. by rewrite H.
Qed.

Lemma ws_agent_receive_text e agent_id data sups label score :
  ¬ blank data →
  classify (emotion_pipe e (strip data)) = (label, score) →
  ∃ sups1 sups2,
    after_alert e agent_id (strip data) label score sups = Some sups1 ∧
    sups1 `sublist_of` sups ∧
    sups2 `sublist_of` sups1 ∧
    broadcast (transcript_raises e)
      (transcript_msg agent_id (strip data) label score (clock_transcript e))
      sups1
    = (Some sups2,
       attempts (transcript_raises e)
         (transcript_msg agent_id (strip data) label score
            (clock_transcript e)) sups1) ∧
    ws_agent_receive e agent_id data sups
    = Done sups2
        (Classify (strip data)
         :: alert_log e agent_id (strip data) label score sups
         ++ attempts (transcript_raises e)
              (transcript_msg agent_id (strip data) label score
                 (clock_transcript e)) sups1).
Proof.
  intros Hnb Hc. unfold ws_agent_receive, after_alert, alert_log.
  destruct (py_not (strip data)) eqn:Hn.
  { apply py_not_true, strip_nil in Hn. done. }
  rewrite Hc. set (text := strip data).
  destruct (is_alert label score).
  - destruct (broadcast_Some (alert_raises e)
      (make_alert agent_id text label score (clock_alert e)) sups)
      as (sups1 & -> & _ & Hs1).
    destruct (broadcast_Some (transcript_raises e)
      (transcript_msg agent_id text label score (clock_transcript e)) sups1)
      as (sups2 & Hb & _ & Hs2).
    exists sups1, sups2. rewrite Hb. by split_and!.
  - destruct (broadcast_Some (transcript_raises e)
      (transcript_msg agent_id text label score (clock_transcript e))
      sups) as (sups2 & Hb & _ & Hs2).
    exists sups, sups2. rewrite Hb. by split_and!.
Qed.

(** The two scenarios of the specification: an angry text gives an alert
    and then a transcript; a joyful one gives a transcript only. *)
Example scenario_anger :
  ws_agent_receive env_anger agent7 furious [1]
  = Done [1] [Classify furious; Send 1 alert_furious true;
              Send 1 transcript_furious true].
Proof. reflexivity. Qed.

Example scenario_joy :
  ws_agent_receive env_joy agent7 weather [1]
  = Done [1] [Classify weather;
              Send 1 (transcript_msg agent7 weather (lit "joy") f0_99 1001)
                true].
Proof. reflexivity. Qed.

Example samples_are_binary64 :
  is_binary64 f0_0 = true ∧ is_binary64 f0_6 = true ∧
  is_binary64 f0_85 = true ∧ is_binary64 f0_99 = true.
Proof. by vm_compute. Qed.

(** ** The registry invariant *)

Lemma init_inv : registry_inv init.
Proof.
  split_and!; simpl.
  - constructor.
  - intros c. split; [by intros ?%elem_of_nil|]. by intros [?%elem_of_nil _].
  - by intros c ?%elem_of_nil.
Qed.

Lemma ws_supervisor_disconnect_Some websocket sups :
  ∃ sups', ws_supervisor_disconnect websocket sups = Some sups' ∧
           sups' `sublist_of` sups.
Proof.
  unfold ws_supervisor_disconnect. case_bool_decide as Hin.
  - destruct (list_remove_Some _ _ Hin) as (l' & Hl & _).
    exists l'. split; [done|]. by eapply list_remove_sublist.
  - by exists sups.
Qed.

Lemma ws_supervisor_disconnect_absent websocket sups :
  websocket ∉ sups → ws_supervisor_disconnect websocket sups = Some sups.
Proof. intros H. unfold ws_supervisor_disconnect. by rewrite bool_decide_false. Qed.

Lemma ws_supervisor_disconnect_NoDup websocket sups sups' :
  NoDup sups → ws_supervisor_disconnect websocket sups = Some sups' →
  sups' = filter (λ c, c ≠ websocket) sups.
Proof.
  intros Hnd. unfold ws_supervisor_disconnect. case_bool_decide as Hin.
  - by apply list_remove_NoDup.
  - intros [= <-]. symmetry. apply filter_all, Forall_forall.
    by intros c Hc ->.
Qed.

Lemma hub_apply_inv o h h' :
  registry_inv h → hub_apply o h = Some h' → registry_inv h'.
Proof.
  intros (Hnd & Hmem & Hrem). destruct o as [ws|ws|raises msg]; simpl.
  - case_bool_decide as Hreg; [done|]. intros [= <-].
    assert (ws ∉ supervisors h) as Hws by (rewrite Hmem; tauto).
    unfold ws_supervisor_connect. split_and!; simpl.
    + apply NoDup_app. split_and!; [done| |apply NoDup_singleton].
      intros c Hc ->%list_elem_of_singleton. done.
    + intros c. rewrite elem_of_app, list_elem_of_singleton, elem_of_cons, Hmem.
      split.
      * intros [[? ?]| ->]; [tauto|]. split; [by left|].
        intros ?%Hrem. done.
      * intros [[->|?] ?]; [by right|]. left. done.
    + intros c Hc%Hrem. by right.
  - destruct (ws_supervisor_disconnect ws (supervisors h)) as [sups'|] eqn:Hd;
      [|done].
    intros [= <-]. pose proof (ws_supervisor_disconnect_NoDup _ _ _ Hnd Hd) as ->.
    split_and!; simpl.
    + by apply NoDup_filter.
    + intros c. rewrite list_elem_of_filter, Hmem. case_bool_decide as Hin.
      * rewrite not_elem_of_cons. tauto.
      * split; [tauto|]. intros [? ?]. split; [|done].
        intros ->. apply Hin. rewrite Hmem. done.
    + intros c. case_bool_decide as Hin; [|by apply Hrem].
      intros [->|?]%elem_of_cons; [|by apply Hrem]. by apply Hmem in Hin as [? _].
  - destruct (broadcast raises msg (supervisors h)) as [[sups'|] log] eqn:Hb;
      simpl; [|done].
    intros [= <-]. pose proof (broadcast_NoDup _ _ _ _ _ Hnd Hb) as ->.
    pose proof (send_all_dead_sublist raises msg (supervisors h)) as Hsub.
    split_and!; simpl.
    + by apply NoDup_filter.
    + intros c. rewrite list_elem_of_filter, Hmem, not_elem_of_app. tauto.
    + intros c [Hc|Hc]%elem_of_app; [|by apply Hrem].
      eapply elem_of_sublist in Hc; [|exact Hsub]. by apply Hmem in Hc as [? _].
Qed.

(** No operation ends in an exception: [hub_apply] is undefined only for
    the [Connect] of a websocket that went through it before. *)
Lemma hub_apply_defined o h :
  (∀ websocket, o = Connect websocket → websocket ∉ registered h) →
  ∃ h', hub_apply o h = Some h'.
Proof.
  intros Hfresh. destruct o as [ws|ws|raises msg]; simpl.
  - rewrite bool_decide_false by by apply Hfresh. by eexists.
  - destruct (ws_supervisor_disconnect_Some ws (supervisors h))
      as (sups' & -> & _). by eexists.
  - destruct (broadcast_Some raises msg (supervisors h)) as (sups' & -> & _).
    simpl. by eexists.
Qed.

Lemma hub_run_inv ops h h' :
  registry_inv h → hub_run ops h = Some h' → registry_inv h'.
Proof.
  revert h. induction ops as [|o ops IH]; intros h Hinv; simpl.
  - by intros [= <-].
  - destruct (hub_apply o h) as [h1|] eqn:H1; [|done].
    apply IH. by eapply hub_apply_inv.
Qed.

(** ** The alert test and the message types *)


Lemma alert_not_transcript : lit "alert" ≠ lit "transcript".
Proof. discriminate. Qed.

Lemma alert_log_elem e agent_id text label score sups x :
  x ∈ alert_log e agent_id text label score sups ↔
  is_alert label score = true ∧
  ∃ k sup, sups !! k = Some sup ∧
    x = Send sup (make_alert agent_id text label score (clock_alert e))
          (negb (alert_raises e k)).
Proof.
  unfold alert_log. destruct (is_alert label score).
  - rewrite attempts_elem. tauto.
  - rewrite elem_of_nil. split; [done|]. by intros [? _].
Qed.

(** ** Claims *)


Ltac not_blank := unfold blank; apply (bool_decide_eq_false_1 _); reflexivity.








(** A pass that no other handler disturbs, for any list (repeated entries
    included) and any outcome of the sends: it ends without exception; it
    makes one send per entry of the list it started with, the [k]-th to
    the [k]-th entry, whatever the other sends did; the entries whose send
    raised are taken out after the loop and the others stay. *)
Lemma broadcast_alone raises msg sups :
  ∃ sups' log,
    broadcast raises msg sups = (Some sups', log) ∧
    length log = length sups ∧
    (∀ k sup, sups !! k = Some sup →
       log !! k = Some (Send sup msg (negb (raises k)))) ∧
    (∀ sup, sup ∈ (send_all raises msg sups).2 ↔
       ∃ k, sups !! k = Some sup ∧ raises k = true) ∧
    sups ≡ₚ (send_all raises msg sups).2 ++ sups' ∧
    sups' `sublist_of` sups ∧
    (NoDup sups →
       sups' = filter (λ c, c ∉ (send_all raises msg sups).2) sups).
Proof.
  destruct (broadcast_Some raises msg sups) as (sups' & Hb & Hp & Hs).
  exists sups', (attempts raises msg sups). split_and!; try done.
  - apply length_attempts.
  - intros k sup. apply attempts_lookup.
  - intros sup. apply send_all_dead_elem.
  - intros Hnd. by eapply broadcast_NoDup.
Qed.

(** C5. A received text that is empty or holds white space only ends the
    turn at once: the classifier is not called, nothing is sent and the
    registry is unchanged.  A whole session of such texts does nothing. *)
Theorem blank_input_discarded e agent_id data sups :
  blank data →
  ws_agent_receive e agent_id data sups = Done sups [] ∧
  (∀ inputs, Forall (λ i, blank i.2) inputs →
     ws_agent agent_id inputs sups = Done sups []).
Proof.
  intros Hb. split; [by apply ws_agent_receive_blank|].
  induction 1 as [|[e' d] inputs Hd _ IH]; [done|].
  simpl in *. by rewrite (ws_agent_receive_blank _ _ _ _ Hd), IH.
Qed.

Lemma blank_input_discarded_witness :
  blank (lit "   ") ∧
  ws_agent_receive env_anger agent7 (lit "   ") [1; 2] = Done [1; 2] [].
Proof.
  assert (blank (lit "   ")) as Hb.
  { unfold blank. apply (bool_decide_eq_true_1 _). reflexivity. }
  split; [done|].
  apply (blank_input_discarded env_anger agent7 (lit "   ") [1; 2] Hb).
Defined.


(** C6. In the log of one turn of the agent loop every alert send comes
    before every transcript send, whichever supervisors they go to: the
    alert pass is over when the transcript pass starts. *)
Theorem alert_before_transcript e agent_id data sups i j sup sup' a t ok ok' :
  log_of (ws_agent_receive e agent_id data sups) !! i = Some (Send sup a ok) →
  ev_type a = lit "alert" →
  log_of (ws_agent_receive e agent_id data sups) !! j
    = Some (Send sup' t ok') →
  ev_type t = lit "transcript" →
  i < j.
Proof.
  destruct (decide (blank data)) as [Hb|Hnb].
  { rewrite (ws_agent_receive_blank _ _ _ _ Hb). simpl. by intros ?. }
  destruct (classify (emotion_pipe e (strip data))) as [label score] eqn:Hc.
  destruct (ws_agent_receive_text e agent_id data sups label score Hnb Hc)
    as (sups1 & sups2 & _ & _ & _ & _ & ->).
  simpl. intros Hi Ha Hj Ht.
  destruct i as [|i]; [done|]. destruct j as [|j]; [done|]. simpl in *.
  apply lookup_app_Some in Hi as [Hi|[_ Hi]].
  - apply lookup_lt_Some in Hi as Hlt.
    apply lookup_app_Some in Hj as [Hj|[Hge _]]; [|lia].
    apply list_elem_of_lookup_2, alert_log_elem in Hj
      as (_ & k & s & _ & [= -> -> ->]).
    simpl in Ht. by destruct alert_not_transcript.
  - apply list_elem_of_lookup_2, attempts_elem in Hi
      as (k & s & _ & [= -> -> ->]).
    simpl in Ha. by destruct alert_not_transcript.
Qed.

Lemma alert_before_transcript_witness :
  log_of (ws_agent_receive env_anger agent7 furious [1; 2]) !! 2
    = Some (Send 2 alert_furious true) ∧
  log_of (ws_agent_receive env_anger agent7 furious [1; 2]) !! 3
    = Some (Send 1 transcript_furious true) ∧
  2 < 3.
Proof.
  split_and!; [reflexivity|reflexivity|].
  by apply (alert_before_transcript env_anger agent7 furious [1; 2] 2 3
              2 1 alert_furious
              transcript_furious
              true true).
Defined.

(** ** Reachable registries *)

Lemma reachable_inv h : reachable h → registry_inv h.
Proof. intros [ops Hops]. eapply hub_run_inv; [apply init_inv|exact Hops]. Qed.

Lemma reachable_NoDup h : reachable h → NoDup (supervisors h).
Proof. by intros (? & _)%reachable_inv. Qed.

Lemma hub_run_snoc ops o h h1 h2 :
  hub_run ops h = Some h1 → hub_apply o h1 = Some h2 →
  hub_run (ops ++ [o]) h = Some h2.
Proof.
  revert h. induction ops as [|o' ops IH]; intros h; simpl.
  - intros [= ->] ->. done.
  - destruct (hub_apply o' h) as [h'|]; [|done]. apply IH.
Qed.

Lemma reachable_step o h h' :
  reachable h → hub_apply o h = Some h' → reachable h'.
Proof.
  intros [ops Hops] Ho. exists (ops ++ [o]). by eapply hub_run_snoc.
Qed.

Lemma hub_apply_broadcast raises msg h sups' log :
  broadcast raises msg (supervisors h) = (Some sups', log) →
  ∃ h', hub_apply (Broadcast raises msg) h = Some h' ∧ supervisors h' = sups'.
Proof.
  intros Hb. simpl. rewrite Hb. simpl. by eexists.
Qed.

(** A turn of the agent loop moves the registry as its passes do. *)
Lemma ws_agent_receive_reachable e agent_id data h sups' log :
  reachable h →
  ws_agent_receive e agent_id data (supervisors h) = Done sups' log →
  ∃ h', reachable h' ∧ supervisors h' = sups'.
Proof.
  intros Hre Hr. destruct (decide (blank data)) as [Hb|Hnb].
  { rewrite (ws_agent_receive_blank _ _ _ _ Hb) in Hr.
    injection Hr as <- _. by exists h. }
  destruct (classify (emotion_pipe e (strip data))) as [label score] eqn:Hc.
  destruct (ws_agent_receive_text e agent_id data (supervisors h) label score
              Hnb Hc) as (sups1 & sups2 & Ha & _ & _ & Hb & Hr').
  rewrite Hr' in Hr. injection Hr as <- _.
  assert (∃ h1, reachable h1 ∧ supervisors h1 = sups1) as (h1 & Hre1 & <-).
  { unfold after_alert in Ha. destruct (is_alert label score).
    - destruct (broadcast (alert_raises e)
        (make_alert agent_id (strip data) label score (clock_alert e))
        (supervisors h)) as [o l] eqn:Hb1. simpl in Ha. subst o.
      destruct (hub_apply_broadcast _ _ _ _ _ Hb1) as (h1 & H1 & Hs).
      exists h1. split; [by eapply reachable_step|done].
    - exists h. split; [done|congruence]. }
  destruct (hub_apply_broadcast _ _ _ _ _ Hb) as (h2 & H2 & Hs).
  exists h2. split; [by eapply reachable_step|done].
Qed.

(** C7. Taking a websocket out on disconnect never raises; when the
    websocket is not in the list the list is left as it is; and in any
    registry the operations can produce, running the disconnect branch a
    second time changes nothing. *)
Theorem disconnect_idempotent :
  (∀ websocket sups,
     websocket ∉ sups → ws_supervisor_disconnect websocket sups = Some sups) ∧
  (∀ websocket h, reachable h →
     ∃ h1,
       hub_apply (Disconnect websocket) h = Some h1 ∧
       ws_supervisor_disconnect websocket (supervisors h)
         = Some (supervisors h1) ∧
       (websocket ∉ supervisors h1) ∧
       ws_supervisor_disconnect websocket (supervisors h1)
         = Some (supervisors h1) ∧
       hub_apply (Disconnect websocket) h1 = Some h1).
Proof.
  split; [apply ws_supervisor_disconnect_absent|].
  intros ws h Hre. pose proof (reachable_NoDup h Hre) as Hnd.
  destruct (ws_supervisor_disconnect_Some ws (supervisors h))
    as (sups' & Hd & _).
  pose proof (ws_supervisor_disconnect_NoDup _ _ _ Hnd Hd) as Hf.
  assert (ws ∉ sups') as Hout.
  { rewrite Hf, list_elem_of_filter. by intros [? _]. }
  eexists. simpl. rewrite Hd. split_and!; [done|done|done| |]; simpl.
  - by apply ws_supervisor_disconnect_absent.
  - rewrite (ws_supervisor_disconnect_absent _ _ Hout).
    by rewrite bool_decide_false.
Qed.

Lemma disconnect_idempotent_witness :
  reachable (Hub [1; 2] [2; 1] []) ∧
  ∃ h1,
    hub_apply (Disconnect 1) (Hub [1; 2] [2; 1] []) = Some h1 ∧
    hub_apply (Disconnect 1) h1 = Some h1.
Proof.
  assert (reachable (Hub [1; 2] [2; 1] [])) as Hre.
  { exists [Connect 1; Connect 2]. reflexivity. }
  split; [done|].
  destruct (proj2 disconnect_idempotent 1 _ Hre) as (h1 & H1 & _ & _ & _ & H2).
  by exists h1.
Defined.

(** C8. After any sequence of connects, disconnects and broadcast passes
    from the empty list, the list has no repeated entry and holds exactly
    the websockets that were appended and that no [remove] has taken out;
    every further operation ends normally in such a registry, and so does
    a turn of the agent loop. *)
Theorem registry_invariant h :
  reachable h →
  NoDup (supervisors h) ∧
  (∀ c, c ∈ supervisors h ↔ c ∈ registered h ∧ c ∉ removed h) ∧
  (∀ o, (∀ websocket, o = Connect websocket → websocket ∉ registered h) →
     ∃ h', hub_apply o h = Some h' ∧ reachable h') ∧
  (∀ e agent_id data sups' log,
     ws_agent_receive e agent_id data (supervisors h) = Done sups' log →
     ∃ h', reachable h' ∧ supervisors h' = sups').
Proof.
  intros Hre. destruct (reachable_inv h Hre) as (Hnd & Hmem & _).
  split_and!; [done|done| |].
  - intros o Ho. destruct (hub_apply_defined o h Ho) as (h' & Hh').
    exists h'. split; [done|]. by eapply reachable_step.
  - intros e agent_id data sups' log. by apply ws_agent_receive_reachable.
Qed.

Lemma registry_invariant_witness :
  reachable (Hub [2; 3] [3; 2; 1] [1]) ∧
  NoDup (supervisors (Hub [2; 3] [3; 2; 1] [1])).
Proof.
  assert (reachable (Hub [2; 3] [3; 2; 1] [1])) as Hre.
  { exists [Connect 1; Connect 2; Disconnect 1; Connect 3]. reflexivity. }
  split; [done|]. by apply (registry_invariant _ Hre).
Defined.



(** ** A pass among the other handlers *)

Lemma send_all_ext f g msg sups :
  (∀ k, f k = g k) → send_all f msg sups = send_all g msg sups.
Proof.
  revert f g. induction sups as [|sup rest IH]; intros f g Hfg; [done|].
  simpl. rewrite (IH (f ∘ S) (g ∘ S)); [|intros k; apply Hfg].
  by rewrite Hfg.
Qed.

Lemma pass_run_undisturbed raises msg post pre dead log :
  pass_run msg (undisturbed raises (length pre) (length post))
    (pass_resume (pre ++ post) (length pre) dead log)
  = Some
      (match remove_each
               (dead ++ (send_all (λ k, raises (length pre + k)) msg post).2)
               (pre ++ post) with
       | Some sups' =>
           Finished sups'
             (log ++ (send_all (λ k, raises (length pre + k)) msg post).1)
       | None =>
           Failed (log ++ (send_all (λ k, raises (length pre + k)) msg post).1)
       end).
Proof.
  revert pre dead log. induction post as [|sup post IH]; intros pre dead log.
  - simpl. unfold pass_resume.
    rewrite lookup_ge_None_2 by (rewrite length_app; simpl; lia).
    rewrite !app_nil_r. by destruct (remove_each dead (pre ++ [])).
  - unfold undisturbed. simpl. unfold pass_resume at 1.
    rewrite list_lookup_middle by done. simpl.
    specialize (IH (pre ++ [sup])
      (if negb (raises (length pre)) then dead else dead ++ [sup])
      (log ++ [Send sup msg (negb (raises (length pre)))])).
    rewrite length_app in IH. simpl in IH.
    replace (length pre + 1) with (S (length pre)) in IH by lia.
    rewrite <- (assoc_L (++) pre [sup] post) in IH. simpl in IH.
    unfold undisturbed in IH. rewrite IH. clear IH. f_equal.
    rewrite (send_all_ext ((λ k, raises (length pre + k)) ∘ S)
               (λ k, raises (S (length pre + k))) msg post)
      by (intros k; simpl; f_equal; lia).
    destruct (send_all (λ k, raises (S (length pre + k))) msg post)
      as [l d]. simpl.
    replace (length pre + 0) with (length pre) by lia.
    destruct (raises (length pre)); simpl;
      rewrite <- ?(assoc_L (++)); simpl; done.
Qed.

(** C9, as the code has it.  There is no lock around the list: a pass that
    no other handler disturbs visits every entry once and ends as
    [broadcast] says, with no exception. *)
Theorem pass_alone_is_broadcast raises msg sups :
  ∃ sups',
    broadcast raises msg sups
    = (Some sups',
       imap (λ k sup, Send sup msg (negb (raises k))) sups) ∧
    pass_run msg (undisturbed raises 0 (length sups)) (pass_start sups)
    = Some (Finished sups'
              (imap (λ k sup, Send sup msg (negb (raises k))) sups)).
Proof.
  destruct (broadcast_Some raises msg sups) as (sups' & Hb & _).
  exists sups'. split; [exact Hb|].
  pose proof (pass_run_undisturbed raises msg sups [] [] []) as Hrun.
  simpl in Hrun. unfold pass_start. rewrite Hrun. clear Hrun.
  unfold broadcast in Hb.
  rewrite (send_all_ext (λ k, raises k) raises) by done.
  pose proof (send_all_log raises msg sups) as Hlog.
  destruct (send_all raises msg sups) as [l d]. simpl in *. subst l.
  by injection Hb as ->.
Qed.

Lemma pass_alone_is_broadcast_witness :
  ∃ sups',
    pass_run alert_furious
      [SendReturns false; SendReturns true] (pass_start [1; 2])
    = Some (Finished sups'
              [Send 1 alert_furious false; Send 2 alert_furious true]).
Proof.
  destruct (pass_alone_is_broadcast (λ k, bool_decide (k = 0))
              alert_furious [1; 2]) as (sups' & _ & Hrun).
  exists sups'. exact Hrun.
Defined.

(** C9 as stated fails.  Supervisors 1 and 2 are registered and a pass is
    suspended in its send to 1.  The handler of 1 now runs its disconnect
    branch.  If the send then returns, the pass ends without any send to
    2, which is in the list before, during and after the pass: the sends
    made are those of a pass over neither [[1; 2]] nor [[2]].  If the
    send raises, the pass also skips 2 and then its own [remove] of 1
    raises [ValueError].  The same exception arises when 1 is taken out
    while the pass, having marked 1 as dead, is suspended in its send to
    2. *)
Lemma pass_not_isolated :
  pass_start [1; 2] = Running [1; 2] 1 [] 1 [] ∧
  pass_step alert_furious (Disconnects 1) (Running [1; 2] 1 [] 1 [])
    = Some (Running [2] 1 [] 1 []) ∧
  pass_run alert_furious [Disconnects 1; SendReturns true] (pass_start [1; 2])
    = Some (Finished [2] [Send 1 alert_furious true]) ∧
  (∀ raises,
     [Send 1 alert_furious true] ≠ attempts raises alert_furious [1; 2]) ∧
  (∀ raises,
     [Send 1 alert_furious true] ≠ attempts raises alert_furious [2]) ∧
  pass_run alert_furious [Disconnects 1; SendReturns false] (pass_start [1; 2])
    = Some (Failed [Send 1 alert_furious false]) ∧
  pass_run alert_furious [SendReturns false; Disconnects 1; SendReturns true]
    (pass_start [1; 2])
    = Some (Failed [Send 1 alert_furious false; Send 2 alert_furious true]).
Proof. split_and!; try reflexivity; intros raises; discriminate. Qed.

(** ** A turn among the other handlers *)



(** C3 fails in the code.  Supervisors 1 and 2 are in the list and the
    text is classified ("anger", 0.85).  The send of the alert to 1 raises,
    so 1 is put in [dead]; while the pass is suspended in its send to 2,
    another handler takes 1 out of the list (the disconnect branch of the
    handler of 1, or the removals of the pass of another agent that found
    1 dead as well).  The loop ends and [supervisors.remove(1)] of line 71
    raises [ValueError]: the failed send has raised to the caller, the
    transcript pass does not take place and the handler is over.  Line 89
    does the same in the transcript pass.  The [remove] of line 110 is
    guarded by the test of line 109 and leaves the list alone here; had
    the send to 1 gone through, the same schedule would end the turn
    normally. *)
Theorem send_failure_raises_to_caller :
  classify (emotion_pipe env_anger (strip furious)) = (lit "anger", f0_85) ∧
  is_alert (lit "anger") f0_85 = true ∧
  ws_agent_turn env_anger agent7 furious
    [SendReturns false; Disconnects 1; SendReturns true] [] [1; 2]
  = Some (Raised [Classify furious; Send 1 alert_furious false;
                  Send 2 alert_furious true]) ∧
  ws_agent_turn env_joy agent7 weather
    [] [SendReturns false; Disconnects 1; SendReturns true] [1; 2]
  = Some (Raised [Classify weather; Send 1 transcript_weather false;
                  Send 2 transcript_weather true]) ∧
  remove_each [1] [2] = None ∧
  ws_supervisor_disconnect 1 [2] = Some [2] ∧
  ws_agent_turn env_anger agent7 furious
    [SendReturns true; Disconnects 1; SendReturns true] [SendReturns true]
    [1; 2]
  = Some (Done [2] [Classify furious; Send 1 alert_furious true;
                    Send 2 alert_furious true;
                    Send 2 transcript_furious true]).
Proof. split_and!; reflexivity. Qed.




(** * Further properties of the handlers *)

(** ** Trimming *)

Lemma lstrip_app l r :
  lstrip (l ++ r) = match lstrip l with [] => lstrip r | _ => lstrip l ++ r end.
Proof.
  induction l as [|c l IH]; simpl; [done|].
  by destruct (is_space c).
Qed.

Lemma lstrip_blank_l a s : blank a → lstrip (a ++ s) = lstrip s.
Proof. intros Ha%lstrip_nil. by rewrite lstrip_app, Ha. Qed.

Lemma lstrip_split s : ∃ a, s = a ++ lstrip s ∧ blank a.
Proof.
  induction s as [|c s (a & Ha & Hb)]; simpl.
  - exists []. split; [done|constructor].
  - destruct (is_space c) eqn:Hc.
    + exists (c :: a). split; [simpl; by f_equal|by constructor].
    + exists []. split; [done|constructor].
Qed.

Lemma lstrip_head s c : head (lstrip s) = Some c → is_space c = false.
Proof.
  destruct (lstrip_blank_or_head s) as [->|(c' & s' & -> & Hc)]; [done|].
  by intros [= <-].
Qed.

Lemma lstrip_fixed s :
  (∀ c, head s = Some c → is_space c = false) → lstrip s = s.
Proof.
  destruct s as [|c s]; [done|]. intros H. simpl. by rewrite (H c).
Qed.

Lemma blank_reverse s : blank (reverse s) ↔ blank s.
Proof. unfold blank. apply Forall_reverse. Qed.

Lemma blank_app a b : blank (a ++ b) ↔ blank a ∧ blank b.
Proof. unfold blank. apply Forall_app. Qed.

Lemma rstrip_blank_r s b : blank b → rstrip (s ++ b) = rstrip s.
Proof.
  intros Hb. unfold rstrip. rewrite reverse_app.
  by rewrite lstrip_blank_l by by apply blank_reverse.
Qed.

(** What [strip] returns: the received text less a blank prefix and a
    blank suffix, with no white space at either end. *)
Lemma strip_split s :
  ∃ a b, s = a ++ strip s ++ b ∧ blank a ∧ blank b ∧
    (∀ c, head (strip s) = Some c → is_space c = false) ∧
    (∀ c, last (strip s) = Some c → is_space c = false).
Proof.
  destruct (lstrip_split s) as (a & Ha & Hba).
  destruct (lstrip_split (reverse (lstrip s))) as (b & Hb & Hbb).
  exists a, (reverse b). unfold strip, rstrip. split_and!.
  - rewrite <- reverse_app, <- Hb, reverse_involutive. exact Ha.
  - done.
  - by apply blank_reverse.
  - intros c. rewrite head_reverse.
    destruct (lstrip_blank_or_head s) as [->|(c0 & s' & E & Hc0)]; [done|].
    rewrite E, reverse_cons, lstrip_app.
    destruct (lstrip (reverse s')) as [|x l].
    + simpl. rewrite Hc0. by intros [= <-].
    + rewrite last_snoc. by intros [= <-].
  - intros c. rewrite last_reverse. apply lstrip_head.
Qed.

Lemma strip_fixed s :
  (∀ c, head s = Some c → is_space c = false) →
  (∀ c, last s = Some c → is_space c = false) →
  strip s = s.
Proof.
  intros Hh Hl. unfold strip, rstrip. rewrite (lstrip_fixed s Hh).
  rewrite lstrip_fixed; [apply reverse_involutive|].
  intros c. rewrite head_reverse. apply Hl.
Qed.

Lemma strip_idempotent s : strip (strip s) = strip s.
Proof.
  destruct (strip_split s) as (_ & _ & _ & _ & _ & Hh & Hl).
  by apply strip_fixed.
Qed.

Lemma strip_padding a s b : blank a → blank b → strip (a ++ s ++ b) = strip s.
Proof.
  intros Ha Hb. unfold strip. rewrite (lstrip_blank_l _ _ Ha), lstrip_app.
  destruct (lstrip s) as [|c l] eqn:E.
  - apply lstrip_nil in Hb. by rewrite Hb.
  - by apply rstrip_blank_r.
Qed.

(** X1. White space around the received text never changes a turn of the
    agent loop: the registry, the classifier call and every message sent
    are those of the bare text. *)
Theorem padding_ignored e agent_id a data b sups :
  blank a → blank b →
  ws_agent_receive e agent_id (a ++ data ++ b) sups
  = ws_agent_receive e agent_id data sups.
Proof.
  intros Ha Hb. unfold ws_agent_receive. by rewrite (strip_padding _ _ _ Ha Hb).
Qed.

Lemma padding_ignored_witness :
  blank (lit "  ") ∧ blank [0x0A; 0x3000]%N ∧
  ws_agent_receive env_anger agent7 (lit "  " ++ furious ++ [0x0A; 0x3000]%N)
    [1; 2]
  = ws_agent_receive env_anger agent7 furious [1; 2].
Proof.
  assert (blank (lit "  ")) as Ha.
  { unfold blank. apply (bool_decide_eq_true_1 _). reflexivity. }
  assert (blank [0x0A; 0x3000]%N) as Hb.
  { unfold blank. apply (bool_decide_eq_true_1 _). reflexivity. }
  split_and!; [done|done|].
  apply (padding_ignored env_anger agent7 _ furious _ [1; 2] Ha Hb).
Defined.

(** ** A whole agent session *)

Lemma ws_agent_receive_Done e agent_id data sups :
  ∃ sups' log,
    ws_agent_receive e agent_id data sups = Done sups' log ∧
    sups' `sublist_of` sups.
Proof.
  destruct (decide (blank data)) as [Hb|Hnb].
  - exists sups, []. by rewrite (ws_agent_receive_blank _ _ _ _ Hb).
  - destruct (classify (emotion_pipe e (strip data))) as [label score] eqn:Hc.
    destruct (ws_agent_receive_text e agent_id data sups label score Hnb Hc)
      as (sups1 & sups2 & _ & H1 & H2 & _ & Hr).
    eexists _, _. split; [exact Hr|]. by etrans.
Qed.

Lemma ws_agent_Done agent_id inputs sups :
  ∃ sups' log,
    ws_agent agent_id inputs sups = Done sups' log ∧ sups' `sublist_of` sups.
Proof.
  revert sups. induction inputs as [|[e data] rest IH]; intros sups; simpl.
  - by exists sups, [].
  - destruct (ws_agent_receive_Done e agent_id data sups)
      as (s1 & l1 & -> & Hs1).
    destruct (IH s1) as (s2 & l2 & -> & Hs2).
    eexists _, _. split; [done|]. by etrans.
Qed.

(** X4. The classifier is called once for each received text that is not
    blank, on the trimmed text and in the order of arrival, and never for
    a blank one. *)
Theorem classifier_calls now inputs sups :
  omap classified (log_of (ws_agent_session now inputs sups))
  = filter (λ text, text ≠ []) (map (λ i, strip i.2) inputs).
Proof.
  unfold ws_agent_session. revert sups.
  induction inputs as [|[e data] rest IH]; intros sups; [done|].
  simpl. destruct (ws_agent_receive_Done e (agent_id_of now) data sups)
    as (s1 & l1 & Hr1 & _).
  destruct (ws_agent_Done (agent_id_of now) rest s1) as (s2 & l2 & Hr2 & _).
  specialize (IH s1). rewrite Hr1, Hr2 in *. simpl in *.
  rewrite omap_app, IH. clear IH Hr2.
  destruct (decide (blank data)) as [Hb|Hnb].
  - rewrite (ws_agent_receive_blank _ _ _ _ Hb) in Hr1.
    injection Hr1 as _ <-. apply strip_nil in Hb.
    rewrite filter_cons_False by (by rewrite Hb; intros []). done.
  - destruct (classify (emotion_pipe e (strip data))) as [label score] eqn:Hc.
    destruct (ws_agent_receive_text e (agent_id_of now) data sups label score
                Hnb Hc) as (sups1 & sups2 & _ & _ & _ & _ & Hr).
    rewrite Hr in Hr1. injection Hr1 as _ <-.
    rewrite filter_cons_True by (by intros ?%strip_nil). simpl.
    f_equal. rewrite omap_app.
    assert (∀ l, (∀ x, x ∈ l → classified x = None) →
              omap classified l = []) as Hnone.
    { induction l as [|y l IHl]; intros H; [done|]. simpl.
      rewrite (H y) by by left. apply IHl. intros z Hz. apply H. by right. }
    rewrite !Hnone; [done| |].
    + by intros x (k & sup & _ & ->)%attempts_elem.
    + by intros x (_ & k & sup & _ & ->)%alert_log_elem.
Qed.

Lemma broadcast_drops raises msg sups sups' log k sup :
  NoDup sups → broadcast raises msg sups = (Some sups', log) →
  sups !! k = Some sup → raises k = true → sup ∉ sups'.
Proof.
  intros Hnd Hb Hk Hr.
  rewrite (broadcast_NoDup _ _ _ _ _ Hnd Hb), list_elem_of_filter.
  intros [Hdead _]. apply Hdead, send_all_dead_elem. by exists k.
Qed.

(** ** The supervisor handler and the registry *)

Lemma idle_read_id inbound sups : idle_read inbound sups = sups.
Proof. by induction inbound. Qed.

Lemma list_remove_snoc x l : x ∉ l → list_remove x (l ++ [x]) = Some l.
Proof.
  induction l as [|y l IH]; intros Hx; simpl.
  - by rewrite decide_True.
  - apply not_elem_of_cons in Hx as [Hne Hx].
    rewrite decide_False by done. by rewrite IH.
Qed.

(** X7. A supervisor handler that runs from connect to disconnect with no
    other handler in between never raises and leaves a list of the length
    it found; when its websocket was not in the list, it leaves the very
    list it found, whatever the supervisor sent in the meantime. *)
Theorem supervisor_session_restores websocket inbound sups :
  (∃ sups', ws_supervisor websocket inbound sups = Some sups' ∧
            length sups' = length sups) ∧
  (websocket ∉ sups → ws_supervisor websocket inbound sups = Some sups).
Proof.
  unfold ws_supervisor, ws_supervisor_connect, ws_supervisor_disconnect.
  rewrite idle_read_id.
  assert (websocket ∈ sups ++ [websocket]) as Hin.
  { apply elem_of_app. right. by apply list_elem_of_singleton. }
  rewrite bool_decide_true by done. split.
  - destruct (list_remove_Some _ _ Hin) as (l' & -> & Hp).
    exists l'. split; [done|]. apply Permutation_length in Hp.
    rewrite length_app in Hp. simpl in Hp. lia.
  - apply list_remove_snoc.
Qed.

Lemma supervisor_session_restores_witness :
  (3 ∉ [1; 2]) ∧ ws_supervisor 3 [lit "ping"] [1; 2] = Some [1; 2].
Proof.
  assert (3 ∉ [1; 2]) as H by (by apply (bool_decide_unpack _)).
  split; [done|].
  by apply (proj2 (supervisor_session_restores 3 [lit "ping"] [1; 2])).
Defined.

(** X8. After a pass has taken a supervisor out because its send raised,
    the disconnect branch of that supervisor leaves the list alone and
    does not raise: the membership test of line 109 is what prevents the
    [ValueError] a bare [remove] would raise there. *)
Theorem disconnect_after_drop raises msg sups sups' log k sup :
  NoDup sups →
  broadcast raises msg sups = (Some sups', log) →
  sups !! k = Some sup →
  raises k = true →
  list_remove sup sups' = None ∧
  ws_supervisor_disconnect sup sups' = Some sups'.
Proof.
  intros Hnd Hb Hk Hr.
  pose proof (broadcast_drops _ _ _ _ _ _ _ Hnd Hb Hk Hr) as Hout.
  split; [by apply list_remove_None|by apply ws_supervisor_disconnect_absent].
Qed.

Lemma disconnect_after_drop_witness :
  NoDup [4; 5; 6] ∧
  broadcast (λ k, bool_decide (k = 1)) alert_furious [4; 5; 6]
  = (Some [4; 6], [Send 4 alert_furious true; Send 5 alert_furious false;
                   Send 6 alert_furious true]) ∧
  ws_supervisor_disconnect 5 [4; 6] = Some [4; 6].
Proof.
  assert (NoDup [4; 5; 6]) as Hnd by (by apply (bool_decide_unpack _)).
  assert (broadcast (λ k, bool_decide (k = 1)) alert_furious [4; 5; 6]
    = (Some [4; 6], [Send 4 alert_furious true; Send 5 alert_furious false;
                     Send 6 alert_furious true])) as Hb by reflexivity.
  split_and!; [done|done|].
  by apply (disconnect_after_drop _ _ _ _ _ 1 5 Hnd Hb).
Defined.

(** X9. A supervisor leaves the list only through its own disconnect or
    through a pass in which a send to it raised: no connect, no disconnect
    of another supervisor and no send that fails for another supervisor
    takes it out. *)
Theorem eviction_causes o h h' sup :
  hub_apply o h = Some h' →
  sup ∈ supervisors h →
  sup ∉ supervisors h' →
  o = Disconnect sup ∨
  ∃ raises msg k,
    o = Broadcast raises msg ∧ supervisors h !! k = Some sup ∧
    raises k = true.
Proof.
  intros Ho Hin Hout. destruct o as [ws|ws|raises msg]; simpl in Ho.
  - case_bool_decide; [done|]. injection Ho as <-. simpl in Hout.
    destruct Hout. unfold ws_supervisor_connect. apply elem_of_app. by left.
  - destruct (decide (ws = sup)) as [->|Hne]; [by left|].
    unfold ws_supervisor_disconnect in Ho. case_bool_decide as Hws.
    + destruct (list_remove_Some _ _ Hws) as (l' & Hl & Hp).
      rewrite Hl in Ho. injection Ho as <-. simpl in Hout.
      rewrite Hp in Hin. apply elem_of_cons in Hin as [->|Hin]; done.
    + injection Ho as <-. done.
  - right. destruct (broadcast_Some raises msg (supervisors h))
      as (sups' & Hb & Hp & _).
    rewrite Hb in Ho. simpl in Ho. injection Ho as <-. simpl in Hout.
    rewrite Hp in Hin. apply elem_of_app in Hin as [Hin|Hin]; [|done].
    apply send_all_dead_elem in Hin as (k & Hk & Hr).
    by exists raises, msg, k.
Qed.

Lemma eviction_causes_witness :
  hub_apply (Broadcast (λ k, bool_decide (k = 1)) alert_furious)
    (Hub [4; 5; 6] [6; 5; 4] [])
  = Some (Hub [4; 6] [6; 5; 4] [5]) ∧
  5 ∈ [4; 5; 6] ∧ (5 ∉ [4; 6]) ∧
  ∃ raises msg k,
    Broadcast (λ k, bool_decide (k = 1)) alert_furious = Broadcast raises msg ∧
    [4; 5; 6] !! k = Some 5 ∧ raises k = true.
Proof.
  assert (hub_apply (Broadcast (λ k, bool_decide (k = 1)) alert_furious)
    (Hub [4; 5; 6] [6; 5; 4] []) = Some (Hub [4; 6] [6; 5; 4] [5])) as Ho
    by reflexivity.
  assert (5 ∈ [4; 5; 6]) as Hin by (by apply (bool_decide_unpack _)).
  assert (5 ∉ [4; 6]) as Hout by (by apply (bool_decide_unpack _)).
  split_and!; [done|done|done|].
  destruct (eviction_causes _ _ _ 5 Ho Hin Hout) as [?|?]; done.
Defined.

Lemma hub_apply_removed o h h' c :
  hub_apply o h = Some h' → c ∈ removed h → c ∈ removed h'.
Proof.
  destruct o as [ws|ws|raises msg]; simpl.
  - case_bool_decide; [done|]. by intros [= <-].
  - destruct (ws_supervisor_disconnect ws (supervisors h)); [|done].
    intros [= <-] Hc. simpl. case_bool_decide; [by right|done].
  - destruct ((broadcast raises msg (supervisors h)).1); [|done].
    intros [= <-] Hc. simpl. apply elem_of_app. by right.
Qed.

Lemma hub_run_removed ops h h' c :
  hub_run ops h = Some h' → c ∈ removed h → c ∈ removed h'.
Proof.
  revert h. induction ops as [|o ops IH]; intros h; simpl.
  - by intros [= <-].
  - destruct (hub_apply o h) as [h1|] eqn:H1; [|done].
    intros Hr Hc. eapply IH; [done|]. by eapply hub_apply_removed.
Qed.

(** X10. A websocket that a [remove] took out of the list is never in the
    list again, whatever connects, disconnects and passes follow: the
    only [append] is the one its own handler ran at the start. *)
Theorem removed_never_returns h ops h' sup :
  reachable h →
  sup ∈ removed h →
  hub_run ops h = Some h' →
  sup ∉ supervisors h'.
Proof.
  intros Hre Hrem Hrun.
  pose proof (hub_run_removed _ _ _ _ Hrun Hrem) as Hrem'.
  destruct (hub_run_inv ops h h' (reachable_inv h Hre) Hrun) as (_ & Hmem & _).
  rewrite Hmem. by intros [_ ?].
Qed.

Lemma removed_never_returns_witness :
  reachable (Hub [2] [2; 1] [1]) ∧
  1 ∈ removed (Hub [2] [2; 1] [1]) ∧
  hub_run [Connect 3; Broadcast (λ _, false) alert_furious; Disconnect 1]
    (Hub [2] [2; 1] [1])
  = Some (Hub [2; 3] [3; 2; 1] [1]) ∧
  1 ∉ supervisors (Hub [2; 3] [3; 2; 1] [1]).
Proof.
  assert (reachable (Hub [2] [2; 1] [1])) as Hre.
  { exists [Connect 1; Connect 2; Disconnect 1]. reflexivity. }
  assert (1 ∈ removed (Hub [2] [2; 1] [1])) as Hin
    by (by apply (bool_decide_unpack _)).
  assert (hub_run
    [Connect 3; Broadcast (λ _, false) alert_furious; Disconnect 1]
    (Hub [2] [2; 1] [1]) = Some (Hub [2; 3] [3; 2; 1] [1])) as Hrun
    by reflexivity.
  split_and!; [done|done|done|].
  by apply (removed_never_returns _ _ _ 1 Hre Hin Hrun).
Defined.

(** ** Registrations during a pass *)

Lemma pass_resume_inv l pre post dead log :
  l = pre ++ post → omap send_target log = pre → dead ⊆+ pre →
  pass_inv l (pass_resume l (length pre) dead log).
Proof.
  intros -> Hlog Hdead. unfold pass_resume. destruct post as [|sup post].
  - rewrite app_nil_r, lookup_ge_None_2 by lia.
    destruct (remove_each_submseteq dead pre Hdead) as (sups' & Hr & _).
    rewrite Hr. simpl. split; [done|]. by eapply remove_each_sublist.
  - rewrite list_lookup_middle by done. simpl. split; [done|].
    by exists pre, post.
Qed.

Lemma pass_step_inv msg ev base c c' :
  pass_inv base c → not_disconnect ev = true →
  pass_step msg ev c = Some c' →
  pass_inv (base ++ connected [ev]) c'.
Proof.
  destruct c as [l i dead sup log| |]; simpl; [|done..].
  intros (-> & pre & post & Hl & -> & Hlog & Hdead) Hev.
  destruct ev as [ok|ws|ws]; simpl; [| |done].
  - intros [= <-]. rewrite app_nil_r.
    replace (S (length pre)) with (length (pre ++ [sup]))
      by (rewrite length_app; simpl; lia).
    apply (pass_resume_inv _ _ post).
    + by rewrite <- (assoc_L (++)).
    + by rewrite omap_app, Hlog.
    + destruct ok; [by apply submseteq_inserts_r|by apply submseteq_skips_r].
  - intros [= <-]. simpl. split; [done|].
    exists pre, (post ++ [ws]). unfold ws_supervisor_connect.
    split_and!; [|done..]. rewrite Hl. by rewrite <- (assoc_L (++)).
Qed.

Lemma connected_cons ev sch :
  connected (ev :: sch) = connected [ev] ++ connected sch.
Proof. by destruct ev. Qed.

Lemma pass_run_inv msg sch base c c' :
  pass_inv base c → forallb not_disconnect sch = true →
  pass_run msg sch c = Some c' →
  pass_inv (base ++ connected sch) c'.
Proof.
  revert base c. induction sch as [|ev sch IH]; intros base c Hinv Hall Hrun.
  - simpl in Hrun. injection Hrun as <-. by rewrite app_nil_r.
  - simpl in Hall, Hrun. apply andb_true_iff in Hall as [Hev Hsch].
    destruct (pass_step msg ev c) as [c1|] eqn:Hstep; [|done].
    pose proof (pass_step_inv _ _ _ _ _ Hinv Hev Hstep) as Hinv1.
    pose proof (IH _ _ Hinv1 Hsch Hrun) as Hinv'.
    by rewrite connected_cons, (assoc_L (++)).
Qed.

(** X11. Registrations during a pass do no harm.  If no supervisor
    disconnects while a pass is suspended, the pass does not end in
    [ValueError], and when it ends it has made exactly one send to each
    entry of the initial list and to each websocket registered in the
    meantime, in that order; the list it leaves is drawn from these. *)
Theorem registrations_during_pass msg sch sups c :
  forallb not_disconnect sch = true →
  pass_run msg sch (pass_start sups) = Some c →
  (∀ log, c ≠ Failed log) ∧
  (∀ sups' log, c = Finished sups' log →
     omap send_target log = sups ++ connected sch ∧
     sups' `sublist_of` sups ++ connected sch).
Proof.
  intros Hsch Hrun.
  assert (pass_inv sups (pass_start sups)) as Hinv.
  { apply (pass_resume_inv sups [] sups); [done|done|apply submseteq_nil_l]. }
  pose proof (pass_run_inv _ _ _ _ _ Hinv Hsch Hrun) as Hinv'.
  split.
  - intros log ->. done.
  - intros sups' log ->. done.
Qed.

Lemma registrations_during_pass_witness :
  forallb not_disconnect
    [Connects 3; SendReturns true; SendReturns false; SendReturns true] = true ∧
  pass_run alert_furious
    [Connects 3; SendReturns true; SendReturns false; SendReturns true]
    (pass_start [1; 2])
  = Some (Finished [1; 3]
            [Send 1 alert_furious true; Send 2 alert_furious false;
             Send 3 alert_furious true]) ∧
  omap send_target
    [Send 1 alert_furious true; Send 2 alert_furious false;
     Send 3 alert_furious true]
  = [1; 2] ++ connected
      [Connects 3; SendReturns true; SendReturns false; SendReturns true].
Proof.
  assert (forallb not_disconnect
    [Connects 3; SendReturns true; SendReturns false; SendReturns true]
    = true) as Hs by reflexivity.
  assert (pass_run alert_furious
    [Connects 3; SendReturns true; SendReturns false; SendReturns true]
    (pass_start [1; 2])
    = Some (Finished [1; 3]
              [Send 1 alert_furious true; Send 2 alert_furious false;
               Send 3 alert_furious true])) as Hr by reflexivity.
  split_and!; [done|done|].
  by apply (proj2 (registrations_during_pass _ _ _ _ Hs Hr) [1; 3]).
Defined.

(** ** The agent identifier *)

Lemma lit_inj s1 s2 : lit s1 = lit s2 → s1 = s2.
Proof.
  unfold lit. revert s2. induction s1 as [|a s1 IH]; intros [|b s2]; simpl;
    try done.
  intros [= Hab Hs]. f_equal; [|by apply IH].
  by rewrite <- (ascii_N_embedding a), <- (ascii_N_embedding b), Hab.
Qed.

Lemma pretty_N_char_digit x :
  is_digit (N_of_ascii (pretty_N_char x)) = true.
Proof. unfold pretty_N_char. by repeat case_match. Qed.

Lemma pretty_N_go_digits n x s :
  (x < 10 ^ N.of_nat n)%N →
  ∃ ds, lit (pretty_N_go x s) = ds ++ lit s ∧
        length ds ≤ n ∧ Forall (λ c, is_digit c = true) ds ∧
        ((0 < x)%N → ds ≠ []).
Proof.
  revert x s. induction n as [|n IH]; intros x s Hx.
  - assert (x = 0%N) as -> by (simpl in Hx; lia).
    exists []. rewrite pretty_N_go_0. split_and!; [done|done|constructor|lia].
  - destruct (decide (x = 0%N)) as [->|Hpos].
    { exists []. rewrite pretty_N_go_0.
      split_and!; [done|simpl; lia|constructor|lia]. }
    rewrite pretty_N_go_step by lia.
    destruct (IH (x `div` 10)%N (String (pretty_N_char (x `mod` 10)) s))
      as (ds & Hds & Hlen & Hdig & _).
    { apply N.Div0.div_lt_upper_bound.
      rewrite Nat2N.inj_succ, N.pow_succ_r' in Hx. lia. }
    exists (ds ++ [N_of_ascii (pretty_N_char (x `mod` 10))]).
    split_and!.
    + rewrite Hds. unfold lit. simpl. by rewrite <- (assoc_L (++)).
    + rewrite length_app. simpl. lia.
    + apply Forall_app. split; [done|]. constructor; [|constructor].
      apply pretty_N_char_digit.
    + intros _. by destruct ds.
Qed.

(** X13. The identifier an agent session gives itself is "agent-"
    followed by one to five decimal digits; two sessions get the same
    identifier exactly when their clock readings in milliseconds are equal
    modulo 100000, so identifiers repeat every 100 seconds. *)
Theorem agent_id_format now :
  (∃ ds, agent_id_of now = lit "agent-" ++ ds ∧
         1 ≤ length ds ≤ 5 ∧ Forall (λ c, is_digit c = true) ds) ∧
  (∀ now', agent_id_of now = agent_id_of now' ↔
           (now `mod` 100000 = now' `mod` 100000)%Z) ∧
  (∀ k, agent_id_of (now + k * 100000) = agent_id_of now).
Proof.
  unfold agent_id_of. split_and!.
  - pose proof (Z.mod_pos_bound now 100000 eq_refl) as Hb.
    destruct (now `mod` 100000)%Z as [|p|p] eqn:E; [| |lia].
    + exists [48%N]. split_and!; [done|simpl; lia|simpl; lia|by repeat constructor].
    + destruct (pretty_N_go_digits 5 (N.pos p) "") as (ds & Hds & Hlen & Hdig & Hne).
      { simpl. lia. }
      exists ds. unfold pretty, pretty_Z, pretty, pretty_positive, pretty, pretty_N.
      rewrite decide_False by done. rewrite Hds.
      split_and!; [by rewrite app_nil_r| |done|done].
      destruct ds; [by destruct Hne|simpl; lia].
  - intros now'. split.
    + intros H%app_inv_head%lit_inj. by apply (inj pretty) in H.
    + by intros ->.
  - intros k. by rewrite Z.mod_add.
Qed.

(** ** Scores at the edges *)

(** X12. Whatever the label, a score that is NaN, a zero, negative or
    minus infinity gives no alert; plus infinity gives an alert exactly for
    the three alert labels. *)
Theorem score_edges label :
  is_alert label S754_nan = false ∧
  (∀ s, is_alert label (S754_zero s) = false) ∧
  (∀ m e, is_alert label (S754_finite true m e) = false) ∧
  is_alert label (S754_infinity true) = false ∧
  is_alert label (S754_infinity false) = bool_decide (label ∈ alert_labels).
Proof.
  unfold is_alert. split_and!; intros; simpl;
    by rewrite ?andb_false_r, ?andb_true_r.
Qed.

Lemma float_gt_trans a b c :
  float_gt b a = true → float_gt c b = true → float_gt c a = true.
Proof.
  unfold float_gt, SFltb.
  destruct a as [[]|[]| |[] ma ea], b as [[]|[]| |[] mb eb],
    c as [[]|[]| |[] mc ec]; simpl; try done;
    change (Pos.compare_cont Eq ?x ?y) with (Pos.compare x y);
    destruct (Z.compare_spec ea eb), (Z.compare_spec eb ec),
      (Z.compare_spec ea ec); try done; try lia; subst;
    destruct (Pos.compare_spec ma mb), (Pos.compare_spec mb mc),
      (Pos.compare_spec ma mc); try done; lia.
Qed.

(** X14. The alert test is monotone in the score: when a pair alerts,
    the same label with any greater score alerts too. *)
Theorem alert_monotone label score score' :
  is_alert label score = true →
  float_gt score' score = true →
  is_alert label score' = true.
Proof.
  unfold is_alert. intros [Hl H1]%andb_true_iff H2. rewrite Hl. simpl.
  by apply (float_gt_trans f0_6 score score').
Qed.

Lemma alert_monotone_witness :
  is_alert (lit "fear") f0_85 = true ∧ float_gt f0_99 f0_85 = true ∧
  is_alert (lit "fear") f0_99 = true.
Proof.
  assert (is_alert (lit "fear") f0_85 = true) as H1 by reflexivity.
  assert (float_gt f0_99 f0_85 = true) as H2 by reflexivity.
  split_and!; [done|done|]. by apply (alert_monotone _ f0_85).
Defined.

(** ** No supervisor connected *)

(** X15. With no supervisor connected, a text that is not blank is still
    classified; nothing is sent and the list stays empty. *)
Theorem nobody_listening e agent_id data :
  ¬ blank data →
  ws_agent_receive e agent_id data [] = Done [] [Classify (strip data)].
Proof.
  intros Hnb.
  destruct (classify (emotion_pipe e (strip data))) as [label score] eqn:Hc.
  destruct (ws_agent_receive_text e agent_id data [] label score Hnb Hc)
    as (sups1 & sups2 & _ & Hs1%sublist_nil_r & Hs2 & _ & ->).
  subst sups1. apply sublist_nil_r in Hs2 as ->.
  unfold alert_log. by destruct (is_alert label score).
Qed.

Lemma nobody_listening_witness :
  ¬ blank furious ∧
  ws_agent_receive env_anger agent7 furious [] = Done [] [Classify furious].
Proof.
  assert (¬ blank furious) as Hnb by not_blank.
  split; [done|]. apply (nobody_listening env_anger agent7 furious Hnb).
Defined.

(** ** A pass under any schedule *)

Lemma list_remove_drop x l l' i :
  list_remove x l = Some l' → drop i l' `sublist_of` drop i l.
Proof.
  revert l' i. induction l as [|y l IH]; intros l' i; simpl; [done|].
  destruct (decide (y = x)) as [->|Hne].
  - intros [= <-]. destruct i as [|i]; simpl.
    + by apply sublist_cons.
    + replace (S i) with (i + 1) by lia.
      rewrite <- (drop_drop l 1 i). apply sublist_drop.
  - destruct (list_remove x l) as [r|] eqn:Hr; [|done].
    intros [= <-]. destruct i as [|i]; simpl.
    + apply sublist_skip. by apply (IH r 0).
    + by apply IH.
Qed.

Lemma pass_resume_once known l i dead log :
  NoDup l → (∀ x, x ∈ l → x ∈ known) →
  NoDup (omap send_target log) →
  (∀ x, x ∈ omap send_target log → x ∈ known) →
  (∀ x, x ∈ drop i l → x ∉ omap send_target log) →
  pass_once known (pass_resume l i dead log).
Proof.
  intros Hnd Hl Hlog Hk Hahead. unfold pass_resume.
  destruct (l !! i) as [sup|] eqn:Hi.
  - pose proof (drop_S _ _ _ Hi) as Hd.
    assert (NoDup (sup :: drop (S i) l)) as [Hsup _]%NoDup_cons.
    { rewrite <- Hd. exact (sublist_NoDup _ _ Hnd (sublist_drop l i)). }
    assert (sup ∉ omap send_target log) as Hnew.
    { apply Hahead. rewrite Hd. by left. }
    split_and!; simpl.
    + apply NoDup_app. split_and!; [done| |apply NoDup_singleton].
      intros x Hx ->%list_elem_of_singleton. done.
    + intros x [?|Hx%list_elem_of_singleton]%elem_of_app; [by apply Hk|].
      subst x. apply Hl. by eapply list_elem_of_lookup_2.
    + done.
    + done.
    + intros x Hx [Hv|Hv%list_elem_of_singleton]%elem_of_app;
        [|by subst x].
      apply (Hahead x); [|done]. rewrite Hd. by right.
  - by destruct (remove_each dead l).
Qed.

Lemma pass_step_once msg ev known c c' :
  pass_once known c → NoDup (known ++ connected [ev]) →
  pass_step msg ev c = Some c' →
  pass_once (known ++ connected [ev]) c'.
Proof.
  destruct c as [l i dead sup log| |]; simpl; [|done..].
  intros (Hv & Hvk & Hnd & Hl & Hahead) Hfresh.
  destruct ev as [ok|ws|ws]; simpl in *.
  - intros [= <-]. rewrite app_nil_r.
    apply pass_resume_once; rewrite ?omap_app; done.
  - intros [= <-]. apply NoDup_app in Hfresh as (_ & Hws & _).
    assert (ws ∉ known) as Hnew.
    { intros H. apply (Hws ws H). by left. }
    unfold ws_supervisor_connect. split_and!; simpl; [done| | | |].
    + intros x Hx. apply elem_of_app. left. by apply Hvk.
    + apply NoDup_app. split_and!; [done| |apply NoDup_singleton].
      intros x Hx ->%list_elem_of_singleton. by apply Hnew, Hl.
    + intros x [?|?]%elem_of_app; apply elem_of_app; [left; by apply Hl|by right].
    + intros x Hx. rewrite drop_app in Hx.
      apply elem_of_app in Hx as [Hx|Hx]; [by apply Hahead|].
      assert (x = ws) as ->.
      { eapply elem_of_sublist in Hx; [|apply sublist_drop].
        by apply list_elem_of_singleton in Hx. }
      intros H. by apply Hnew, Hvk.
  - destruct (ws_supervisor_disconnect ws l) as [l'|] eqn:Hd; [|done].
    intros [= <-]. rewrite app_nil_r.
    assert (l' `sublist_of` l ∧ drop i l' `sublist_of` drop i l) as [Hs Hsd].
    { unfold ws_supervisor_disconnect in Hd. case_bool_decide.
      - split; [by eapply list_remove_sublist|by eapply list_remove_drop].
      - by injection Hd as <-. }
    split_and!; simpl; [done|done| | |].
    + exact (sublist_NoDup _ _ Hnd Hs).
    + intros x Hx. apply Hl. by eapply elem_of_sublist.
    + intros x Hx. apply Hahead. by eapply elem_of_sublist.
Qed.

Lemma pass_run_once msg sch known c c' :
  pass_once known c → NoDup (known ++ connected sch) →
  pass_run msg sch c = Some c' →
  pass_once (known ++ connected sch) c'.
Proof.
  revert known c. induction sch as [|ev sch IH]; intros known c Hinv Hf Hrun.
  - simpl in Hrun. injection Hrun as <-. by rewrite app_nil_r.
  - simpl in Hrun.
    destruct (pass_step msg ev c) as [c1|] eqn:Hstep; [|done].
    rewrite connected_cons, (assoc_L (++)) in Hf |- *.
    apply (IH _ c1); [|done|done].
    eapply pass_step_once; [done| |done].
    by apply NoDup_app in Hf as (? & _).
Qed.

(** X17. Whatever the other handlers do while a pass is suspended, the
    pass makes at most one send to any websocket, and only to websockets
    of the initial list or registered during the pass.  The initial list
    is without repetition and every registration is of a new websocket. *)
Theorem pass_sends_once msg sch sups c :
  NoDup (sups ++ connected sch) →
  pass_run msg sch (pass_start sups) = Some c →
  NoDup (omap send_target (cfg_log c)) ∧
  ∀ sup, sup ∈ omap send_target (cfg_log c) → sup ∈ sups ++ connected sch.
Proof.
  intros Hf Hrun.
  assert (pass_once sups (pass_start sups)) as Hinv.
  { apply NoDup_app in Hf as (Hnd & _).
    apply pass_resume_once; simpl; try done.
    - constructor.
    - by intros x ?%elem_of_nil.
    - intros x _. apply not_elem_of_nil. }
  destruct (pass_run_once _ _ _ _ _ Hinv Hf Hrun) as (Hv & Hk & _).
  destruct c as [l i dead sup log|l log|log]; simpl in *; [|done..].
  apply NoDup_app in Hv as (Hv & _). split; [done|].
  intros x Hx. apply Hk, elem_of_app. by left.
Qed.

Lemma pass_sends_once_witness :
  NoDup ([1; 2; 3]
         ++ connected [Disconnects 1; SendReturns false; Connects 4;
                       SendReturns true; SendReturns true]) ∧
  pass_run alert_furious
    [Disconnects 1; SendReturns false; Connects 4; SendReturns true;
     SendReturns true] (pass_start [1; 2; 3])
  = Some (Failed [Send 1 alert_furious false; Send 3 alert_furious true;
                  Send 4 alert_furious true]) ∧
  NoDup [1; 3; 4].
Proof.
  assert (NoDup ([1; 2; 3]
    ++ connected [Disconnects 1; SendReturns false; Connects 4;
                  SendReturns true; SendReturns true])) as Hf
    by (by apply (bool_decide_unpack _)).
  assert (pass_run alert_furious
    [Disconnects 1; SendReturns false; Connects 4; SendReturns true;
     SendReturns true] (pass_start [1; 2; 3])
    = Some (Failed [Send 1 alert_furious false; Send 3 alert_furious true;
                    Send 4 alert_furious true])) as Hr by reflexivity.
  split_and!; [done|done|].
  apply (proj1 (pass_sends_once _ _ _ _ Hf Hr)).
Defined.

(** ** A turn under any schedule *)

Lemma ws_supervisor_disconnect_sublist websocket sups sups' :
  ws_supervisor_disconnect websocket sups = Some sups' →
  sups' `sublist_of` sups.
Proof.
  unfold ws_supervisor_disconnect. case_bool_decide.
  - apply list_remove_sublist.
  - by intros [= <-].
Qed.

(** The two passes a completed turn on a text that is not blank is made
    of. *)
Lemma ws_agent_turn_text e agent_id data sch_alert sch_transcript sups r
    label score :
  ¬ blank data →
  classify (emotion_pipe e (strip data)) = (label, score) →
  ws_agent_turn e agent_id data sch_alert sch_transcript sups = Some r →
  ∃ c1,
    pass_run (make_alert agent_id (strip data) label score (clock_alert e))
      sch_alert
      (if is_alert label score then pass_start sups else Finished sups [])
    = Some c1 ∧
    ((∃ log1, c1 = Failed log1 ∧ sch_transcript = [] ∧
        r = Raised (Classify (strip data) :: log1)) ∨
     (∃ sups1 log1 c2,
        c1 = Finished sups1 log1 ∧
        pass_run (transcript_msg agent_id (strip data) label score
                    (clock_transcript e))
          sch_transcript (pass_start sups1) = Some c2 ∧
        ((∃ log2, c2 = Failed log2 ∧
            r = Raised (Classify (strip data) :: log1 ++ log2)) ∨
         (∃ sups2 log2, c2 = Finished sups2 log2 ∧
            r = Done sups2 (Classify (strip data) :: log1 ++ log2))))).
Proof.
  intros Hnb Hc. unfold ws_agent_turn.
  destruct (py_not (strip data)) eqn:Hn.
  { apply py_not_true, strip_nil in Hn. done. }
  rewrite Hc. set (text := strip data).
  set (a := make_alert agent_id text label score (clock_alert e)).
  set (t := transcript_msg agent_id text label score (clock_transcript e)).
  assert (pass_run a sch_alert
            (if is_alert label score then pass_start sups
             else Finished sups [])
          = if is_alert label score
            then pass_run a sch_alert (pass_start sups)
            else match sch_alert with
                 | [] => Some (Finished sups [])
                 | _ => None
                 end) as <-.
  { destruct (is_alert label score); [done|]. by destruct sch_alert. }
  destruct (pass_run a sch_alert _) as [[l i d s lg|sups1 log1|log1]|];
    [done| | |done].
  - destruct (pass_run t sch_transcript (pass_start sups1))
      as [[l i d s lg|sups2 log2|log2]|] eqn:H2; [done| | |done].
    + intros [= <-]. eexists. split; [done|]. right.
      exists sups1, log1, (Finished sups2 log2). split_and!; [done|done|].
      right. by exists sups2, log2.
    + intros [= <-]. eexists. split; [done|]. right.
      exists sups1, log1, (Failed log2). split_and!; [done|done|].
      left. by exists log2.
  - destruct sch_transcript; [|done].
    intros [= <-]. eexists. split; [done|]. left. by exists log1.
Qed.

Lemma ws_agent_turn_blank e agent_id data sch_alert sch_transcript sups r :
  blank data →
  ws_agent_turn e agent_id data sch_alert sch_transcript sups = Some r →
  r = Done sups [].
Proof.
  intros Hb%strip_nil. unfold ws_agent_turn. rewrite Hb. simpl.
  destruct sch_alert; [|done]. destruct sch_transcript; [|done].
  by intros [= <-].
Qed.

(** *** Every send of a pass carries the message of the pass *)

Lemma pass_resume_known msg known l i dead log :
  (∀ x, x ∈ l → x ∈ known) →
  (∀ x, x ∈ log → ∃ sup ok, x = Send sup msg ok ∧ sup ∈ known) →
  pass_known msg known (pass_resume l i dead log).
Proof.
  intros Hl Hlog. unfold pass_resume. destruct (l !! i) as [sup|] eqn:Hi.
  - split; [done|]. simpl. split; [|done].
    apply Hl. by eapply list_elem_of_lookup_2.
  - destruct (remove_each dead l) as [l'|] eqn:Hr; [|done].
    split; [done|]. simpl. intros x Hx. apply Hl.
    eapply elem_of_sublist; [done|]. by eapply remove_each_sublist.
Qed.

Lemma pass_step_known msg ev known c c' :
  pass_known msg known c →
  pass_step msg ev c = Some c' →
  pass_known msg (known ++ connected [ev]) c'.
Proof.
  destruct c as [l i dead sup log| |]; simpl; [|done..].
  intros (Hlog & Hsup & Hl). destruct ev as [ok|ws|ws]; simpl.
  - intros [= <-]. rewrite app_nil_r. apply pass_resume_known; [done|].
    intros x [Hx|Hx%list_elem_of_singleton]%elem_of_app; [by apply Hlog|].
    subst x. by eexists _, _.
  - intros [= <-]. unfold ws_supervisor_connect. split; simpl.
    + intros x Hx. destruct (Hlog x Hx) as (s & ok & -> & Hs).
      exists s, ok. split; [done|]. apply elem_of_app. by left.
    + split; [apply elem_of_app; by left|].
      intros x [Hx|Hx]%elem_of_app; apply elem_of_app;
        [left; by apply Hl|by right].
  - destruct (ws_supervisor_disconnect ws l) as [l'|] eqn:Hd; [|done].
    intros [= <-]. rewrite app_nil_r. split; [done|]. simpl.
    split; [done|]. intros x Hx. apply Hl.
    eapply elem_of_sublist; [done|].
    by eapply ws_supervisor_disconnect_sublist.
Qed.

Lemma pass_run_known msg sch known c c' :
  pass_known msg known c →
  pass_run msg sch c = Some c' →
  pass_known msg (known ++ connected sch) c'.
Proof.
  revert known c. induction sch as [|ev sch IH]; intros known c Hinv Hrun.
  - simpl in Hrun. injection Hrun as <-. by rewrite app_nil_r.
  - simpl in Hrun.
    destruct (pass_step msg ev c) as [c1|] eqn:Hstep; [|done].
    rewrite connected_cons, (assoc_L (++)).
    apply (IH _ c1); [|done]. by eapply pass_step_known.
Qed.

Lemma pass_start_known msg sups : pass_known msg sups (pass_start sups).
Proof.
  apply pass_resume_known; [done|]. by intros x ?%elem_of_nil.
Qed.

Lemma turn_start_known msg sups (b : bool) :
  pass_known msg sups (if b then pass_start sups else Finished sups []).
Proof.
  destruct b; [apply pass_start_known|].
  split; [|done]. by intros x ?%elem_of_nil.
Qed.

(** X5. What a turn sends, whatever the other handlers do in the
    meantime.  Every message of the log goes to a supervisor that was in
    the list when the text arrived or that registered during one of the
    two passes, and an alert only to one that was there or registered
    during the alert pass; it carries the identifier of the agent; its
    text is the received text trimmed, which is not empty and neither
    starts nor ends with white space; its emotion and score are the pair
    the classifier block left; it is an alert, sent only for a pair that
    passes the alert test, or a transcript, with the clock reading of its
    kind. *)
Theorem turn_messages e agent_id data sch_alert sch_transcript sups r
    sup msg ok :
  ws_agent_turn e agent_id data sch_alert sch_transcript sups = Some r →
  Send sup msg ok ∈ log_of r →
  sup ∈ sups ++ connected sch_alert ++ connected sch_transcript ∧
  ev_agentId msg = agent_id ∧
  ev_text msg = strip data ∧
  ev_text msg ≠ [] ∧
  (∀ c, head (ev_text msg) = Some c → is_space c = false) ∧
  (∀ c, last (ev_text msg) = Some c → is_space c = false) ∧
  (ev_emotion msg, ev_score msg) = classify (emotion_pipe e (strip data)) ∧
  (ev_type msg = lit "alert" ∧ ev_ts msg = clock_alert e ∧
     is_alert (ev_emotion msg) (ev_score msg) = true ∧
     sup ∈ sups ++ connected sch_alert ∨
   ev_type msg = lit "transcript" ∧ ev_ts msg = clock_transcript e).
Proof.
  intros Hr Hx. destruct (decide (blank data)) as [Hb|Hnb].
  { rewrite (ws_agent_turn_blank _ _ _ _ _ _ _ Hb Hr) in Hx.
    by apply elem_of_nil in Hx. }
  destruct (classify (emotion_pipe e (strip data))) as [label score] eqn:Hc.
  destruct (strip_split data) as (_ & _ & _ & _ & _ & Hh & Hl).
  assert (strip data ≠ []) as Hne by (by intros ?%strip_nil).
  destruct (ws_agent_turn_text _ _ _ _ _ _ _ _ _ Hnb Hc Hr) as (c1 & H1 & Hcase).
  pose proof (pass_run_known _ _ _ _ _
    (turn_start_known _ sups (is_alert label score)) H1) as (Hlog1 & Hl1).
  assert (∀ x, x ∈ cfg_log c1 → is_alert label score = true) as Halert.
  { destruct (is_alert label score); [done|].
    destruct sch_alert; [|done]. injection H1 as <-.
    by intros x ?%elem_of_nil. }
  assert (Send sup msg ok ∈ cfg_log c1 →
    sup ∈ sups ++ connected sch_alert ++ connected sch_transcript ∧
    ev_agentId msg = agent_id ∧ ev_text msg = strip data ∧
    ev_text msg ≠ [] ∧
    (∀ c, head (ev_text msg) = Some c → is_space c = false) ∧
    (∀ c, last (ev_text msg) = Some c → is_space c = false) ∧
    (ev_emotion msg, ev_score msg) = (label, score) ∧
    (ev_type msg = lit "alert" ∧ ev_ts msg = clock_alert e ∧
       is_alert (ev_emotion msg) (ev_score msg) = true ∧
       sup ∈ sups ++ connected sch_alert ∨
     ev_type msg = lit "transcript" ∧ ev_ts msg = clock_transcript e))
    as Hfirst.
  { intros Hin. pose proof (Halert _ Hin) as Hal.
    destruct (Hlog1 _ Hin) as (s & o & [= -> -> ->] & Hs). simpl.
    split_and!; try done.
    - rewrite (assoc_L (++)). apply elem_of_app. by left.
    - by left. }
  destruct Hcase as [(log1 & -> & _ & ->)
                    |(sups1 & log1 & c2 & -> & H2 & Hcase)];
    simpl in *.
  { apply elem_of_cons in Hx as [?|Hx]; [done|]. by apply Hfirst. }
  pose proof (pass_run_known _ _ _ _ _ (pass_start_known _ sups1) H2)
    as (Hlog2 & _).
  assert (Send sup msg ok ∈ log1 ++ cfg_log c2) as Hin.
  { destruct Hcase as [(log2 & -> & ->)|(sups2 & log2 & -> & ->)];
      simpl in *; by apply elem_of_cons in Hx as [?|Hx]. }
  apply elem_of_app in Hin as [Hin|Hin]; [by apply Hfirst|].
  destruct (Hlog2 _ Hin) as (s & o & [= -> -> ->] & Hs). simpl.
  split_and!; try done; [|by right].
  apply elem_of_app in Hs as [Hs|Hs].
  - rewrite (assoc_L (++)). apply elem_of_app. left. by apply Hl1.
  - apply elem_of_app. right. apply elem_of_app. by right.
Qed.

Lemma turn_messages_witness :
  ws_agent_turn env_anger agent7 furious
    [SendReturns true; Connects 3; SendReturns true; SendReturns true]
    [SendReturns true; SendReturns true; SendReturns true] [1; 2]
  = Some (Done [1; 2; 3]
            [Classify furious; Send 1 alert_furious true;
             Send 2 alert_furious true; Send 3 alert_furious true;
             Send 1 transcript_furious true; Send 2 transcript_furious true;
             Send 3 transcript_furious true]) ∧
  3 ∈ [1; 2]
      ++ connected [SendReturns true; Connects 3; SendReturns true;
                    SendReturns true]
      ++ connected [SendReturns true; SendReturns true; SendReturns true] ∧
  ev_agentId alert_furious = agent7.
Proof.
  assert (ws_agent_turn env_anger agent7 furious
    [SendReturns true; Connects 3; SendReturns true; SendReturns true]
    [SendReturns true; SendReturns true; SendReturns true] [1; 2]
    = Some (Done [1; 2; 3]
              [Classify furious; Send 1 alert_furious true;
               Send 2 alert_furious true; Send 3 alert_furious true;
               Send 1 transcript_furious true; Send 2 transcript_furious true;
               Send 3 transcript_furious true])) as Hr by reflexivity.
  split; [exact Hr|].
  assert (Send 3 alert_furious true
    ∈ log_of (Done [1; 2; 3]
        [Classify furious; Send 1 alert_furious true;
         Send 2 alert_furious true; Send 3 alert_furious true;
         Send 1 transcript_furious true; Send 2 transcript_furious true;
         Send 3 transcript_furious true])) as Hin.
  { simpl. apply (list_elem_of_lookup_2 _ 3). reflexivity. }
  destruct (turn_messages _ _ _ _ _ _ _ _ _ _ Hr Hin) as (H3 & Hid & _).
  by split.
Defined.

(** *** A failed send is final *)

Lemma failed_targets_snoc log sup msg ok :
  failed_targets (log ++ [Send sup msg ok])
  = if ok then failed_targets log else failed_targets log ++ [sup].
Proof.
  unfold failed_targets. rewrite omap_app. simpl.
  destruct ok; [by rewrite app_nil_r|done].
Qed.

Lemma failed_targets_lookup (log : list io) (i : nat) sup msg :
  log !! i = Some (Send sup msg false) → sup ∈ failed_targets log.
Proof.
  intros Hi. unfold failed_targets. apply list_elem_of_omap.
  exists (Send sup msg false). split; [|done].
  by eapply list_elem_of_lookup_2.
Qed.

Lemma send_target_lookup (log : list io) (i : nat) sup msg ok :
  (∀ x, x ∈ log → classified x = None) →
  log !! i = Some (Send sup msg ok) →
  omap send_target log !! i = Some sup.
Proof.
  revert i. induction log as [|x log IH]; intros i Hall Hi; [done|].
  assert (classified x = None) as Hx by (apply Hall; by left).
  destruct x as [text|s m o]; [done|]. simpl.
  destruct i as [|i]; simpl in *.
  - by injection Hi as -> _ _.
  - apply IH; [|done]. intros y Hy. apply Hall. by right.
Qed.

(** In a log of sends to pairwise distinct websockets no websocket has
    two sends. *)
Lemma sends_once (log : list io) (i j : nat) sup msg ok msg' ok' :
  (∀ x, x ∈ log → classified x = None) →
  NoDup (omap send_target log) →
  log !! i = Some (Send sup msg ok) →
  log !! j = Some (Send sup msg' ok') →
  i = j.
Proof.
  intros Hall Hnd Hi Hj.
  apply (NoDup_lookup _ _ _ sup Hnd); by eapply send_target_lookup.
Qed.

Lemma pass_known_sends msg known c x :
  pass_known msg known c → x ∈ cfg_log c → classified x = None.
Proof. intros [Hlog _] Hx. by destruct (Hlog x Hx) as (s & o & -> & _). Qed.

Lemma pass_resume_marks l i dead log :
  NoDup l → dead = failed_targets log →
  pass_marks (pass_resume l i dead log).
Proof.
  intros Hnd ->. unfold pass_resume. destruct (l !! i); [done|].
  destruct (remove_each (failed_targets log) l) as [l'|] eqn:Hr; [|done].
  simpl. split.
  - exact (sublist_NoDup _ _ Hnd (remove_each_sublist _ _ _ Hr)).
  - intros sup Hsup. rewrite (remove_each_NoDup _ _ _ Hnd Hr).
    rewrite list_elem_of_filter. by intros [? _].
Qed.

Lemma pass_step_marks msg ev known c c' :
  pass_once known c → pass_marks c →
  pass_step msg ev c = Some c' →
  pass_marks c'.
Proof.
  destruct c as [l i dead sup log| |]; simpl; [|done..].
  intros (_ & _ & Hnd & _) ->. destruct ev as [ok|ws|ws]; simpl.
  - intros [= <-]. apply pass_resume_marks; [done|].
    rewrite failed_targets_snoc. by destruct ok.
  - by intros [= <-].
  - destruct (ws_supervisor_disconnect ws l); [|done]. by intros [= <-].
Qed.

Lemma pass_run_marks msg sch known c c' :
  pass_once known c → pass_marks c →
  NoDup (known ++ connected sch) →
  pass_run msg sch c = Some c' →
  pass_once (known ++ connected sch) c' ∧ pass_marks c'.
Proof.
  revert known c.
  induction sch as [|ev sch IH]; intros known c Hinv Hm Hf Hrun.
  - simpl in Hrun. injection Hrun as <-. by rewrite app_nil_r.
  - simpl in Hrun.
    destruct (pass_step msg ev c) as [c1|] eqn:Hstep; [|done].
    rewrite connected_cons, (assoc_L (++)) in Hf |- *.
    apply (IH _ c1); [| |done|done].
    + eapply pass_step_once; [done| |done].
      by apply NoDup_app in Hf as (? & _).
    + by eapply pass_step_marks.
Qed.

Lemma turn_start_once sups (b : bool) :
  NoDup sups →
  pass_once sups (if b then pass_start sups else Finished sups []) ∧
  pass_marks (if b then pass_start sups else Finished sups []).
Proof.
  intros Hnd. destruct b.
  - split.
    + apply pass_resume_once; simpl; try done.
      * constructor.
      * by intros x ?%elem_of_nil.
      * intros x _. apply not_elem_of_nil.
    + by apply pass_resume_marks.
  - split; simpl.
    + split_and!; [constructor|by intros x ?%elem_of_nil|done].
    + split; [done|]. by intros x ?%elem_of_nil.
Qed.

(** X6. No retry, whatever the other handlers do in the meantime.  In a
    turn started on a list without repetition, every registration being
    of a new websocket: a send to a supervisor that raised is the last
    send of the turn to that supervisor, and when the turn ends normally
    the supervisor is not in the list it leaves. *)
Theorem failed_send_is_final e agent_id data sch_alert sch_transcript sups r
    i sup msg :
  NoDup (sups ++ connected sch_alert ++ connected sch_transcript) →
  ws_agent_turn e agent_id data sch_alert sch_transcript sups = Some r →
  log_of r !! i = Some (Send sup msg false) →
  (∀ j msg' ok', i < j → log_of r !! j ≠ Some (Send sup msg' ok')) ∧
  match r with
  | Done sups' _ => sup ∉ sups'
  | Raised _ => True
  end.
Proof.
  intros Hf Hr Hi. destruct (decide (blank data)) as [Hb|Hnb].
  { by rewrite (ws_agent_turn_blank _ _ _ _ _ _ _ Hb Hr) in Hi. }
  destruct (classify (emotion_pipe e (strip data))) as [label score] eqn:Hc.
  destruct (ws_agent_turn_text _ _ _ _ _ _ _ _ _ Hnb Hc Hr)
    as (c1 & H1 & Hcase).
  rewrite (assoc_L (++)) in Hf.
  pose proof Hf as (Hfa & Hdisj & Hft)%NoDup_app.
  pose proof Hfa as (Hnd & _ & _)%NoDup_app.
  destruct (turn_start_once sups (is_alert label score) Hnd) as [Ho0 Hm0].
  destruct (pass_run_marks _ _ _ _ _ Ho0 Hm0 Hfa H1) as [Ho1 Hm1].
  pose proof (pass_run_known _ _ _ _ _
    (turn_start_known _ sups (is_alert label score)) H1) as Hk1.
  destruct Hcase as [(log1 & -> & _ & ->)
                    |(sups1 & log1 & c2 & -> & H2 & Hcase)].
  { (* the alert pass raised *)
    simpl in *. split; [|done]. destruct i as [|i]; [done|].
    intros [|j] msg' ok' Hij Hj; [lia|]. simpl in *.
    destruct Ho1 as (Hv & _).
    pose proof (sends_once log1 i j sup _ _ _ _
      (λ x, pass_known_sends _ _ (Failed log1) x Hk1) Hv Hi Hj). lia. }
  simpl in Ho1, Hm1. destruct Ho1 as (Hv1 & Hvk1 & _).
  destruct Hm1 as (Hnd1 & Hgone1).
  destruct Hk1 as (Hlog1 & Hl1). simpl in Hlog1, Hl1.
  assert (NoDup (sups1 ++ connected sch_transcript)) as Hft1.
  { apply NoDup_app. split_and!; [done| |done].
    intros x Hx. by apply Hdisj, Hl1. }
  destruct (turn_start_once sups1 true Hnd1) as [Ho Hm].
  destruct (pass_run_marks _ _ _ _ _ Ho Hm Hft1 H2) as [Ho2 Hm2].
  pose proof (pass_run_known _ _ _ _ _ (pass_start_known _ sups1) H2) as Hk2.
  assert (log_of r = Classify (strip data) :: log1 ++ cfg_log c2) as Hlog.
  { by destruct Hcase as [(log2 & -> & ->)|(sups2 & log2 & -> & ->)]. }
  assert (NoDup (omap send_target (cfg_log c2))) as Hv2.
  { destruct Hcase as [(log2 & -> & _)|(sups2 & log2 & -> & _)];
      by destruct Ho2 as (? & _). }
  rewrite Hlog in Hi |- *. destruct i as [|i]; [done|]. simpl in Hi.
  apply lookup_app_Some in Hi as [Hi|[Hge Hi]].
  - (* the send of the alert raised *)
    pose proof (failed_targets_lookup _ _ _ _ Hi) as Hfail.
    assert (sup ∉ sups1 ++ connected sch_transcript) as Hout.
    { intros [Hin|Hin]%elem_of_app; [by apply (Hgone1 sup)|].
      apply (Hdisj sup); [|done]. apply Hvk1. simpl.
      eapply list_elem_of_lookup_2.
      apply (send_target_lookup log1 i sup msg false); [|done].
      intros x Hx. by destruct (Hlog1 x Hx) as (s & o & -> & _). }
    split.
    + intros [|j] msg' ok' Hij; [lia|]. simpl.
      intros [Hj|[_ Hj]]%lookup_app_Some.
      * assert (i = j); [|lia].
        eapply (sends_once log1); [|done..].
        intros x Hx. by destruct (Hlog1 x Hx) as (s & o & -> & _).
      * destruct Hk2 as (Hlog2 & _).
        destruct (Hlog2 _ (list_elem_of_lookup_2 _ _ _ Hj))
          as (s & o & [= -> _ _] & Hs). done.
    + destruct Hcase as [(log2 & -> & ->)|(sups2 & log2 & -> & ->)];
        [done|].
      destruct Hk2 as (_ & Hl2). simpl in Hl2.
      intros Hin. by apply Hout, Hl2.
  - (* the send of the transcript raised *)
    split.
    + intros [|j] msg' ok' Hij; [lia|]. simpl.
      intros [Hj|[Hge' Hj]]%lookup_app_Some.
      * apply lookup_lt_Some in Hj. lia.
      * assert (i - length log1 = j - length log1); [|lia].
        eapply (sends_once (cfg_log c2)); [|done..].
        intros x Hx. by eapply pass_known_sends.
    + destruct Hcase as [(log2 & -> & ->)|(sups2 & log2 & -> & ->)];
        [done|].
      simpl in *. destruct Hm2 as (_ & Hgone2).
      apply Hgone2. by eapply failed_targets_lookup.
Qed.

Lemma failed_send_is_final_witness :
  NoDup ([1; 2]
         ++ connected [SendReturns false; Connects 3; SendReturns true;
                       SendReturns true]
         ++ connected [SendReturns true; SendReturns true]) ∧
  ws_agent_turn env_anger agent7 furious
    [SendReturns false; Connects 3; SendReturns true; SendReturns true]
    [SendReturns true; SendReturns true] [1; 2]
  = Some (Done [2; 3]
            [Classify furious; Send 1 alert_furious false;
             Send 2 alert_furious true; Send 3 alert_furious true;
             Send 2 transcript_furious true;
             Send 3 transcript_furious true]) ∧
  1 ∉ [2; 3].
Proof.
  assert (NoDup ([1; 2]
    ++ connected [SendReturns false; Connects 3; SendReturns true;
                  SendReturns true]
    ++ connected [SendReturns true; SendReturns true])) as Hf
    by (by apply (bool_decide_unpack _)).
  assert (ws_agent_turn env_anger agent7 furious
    [SendReturns false; Connects 3; SendReturns true; SendReturns true]
    [SendReturns true; SendReturns true] [1; 2]
    = Some (Done [2; 3]
              [Classify furious; Send 1 alert_furious false;
               Send 2 alert_furious true; Send 3 alert_furious true;
               Send 2 transcript_furious true;
               Send 3 transcript_furious true])) as Hr by reflexivity.
  split_and!; [done|done|].
  assert (log_of (Done [2; 3]
    [Classify furious; Send 1 alert_furious false;
     Send 2 alert_furious true; Send 3 alert_furious true;
     Send 2 transcript_furious true; Send 3 transcript_furious true]) !! 1
    = Some (Send 1 alert_furious false)) as Hi by reflexivity.
  by apply (proj2 (failed_send_is_final _ _ _ _ _ _ _ 1 1 alert_furious
                     Hf Hr Hi)).
Defined.

(** ** A turn during which nothing is taken out of the list *)

Lemma failed_targets_elem (log : list io) sup :
  sup ∈ failed_targets log ↔ ∃ msg, Send sup msg false ∈ log.
Proof.
  unfold failed_targets. rewrite list_elem_of_omap. split.
  - intros ([text|s m [|]] & Hx & [=]). subst s. by exists m.
  - intros (msg & Hx). by exists (Send sup msg false).
Qed.

Lemma send_target_elem (log : list io) sup :
  sup ∈ omap send_target log ↔ ∃ msg ok, Send sup msg ok ∈ log.
Proof.
  rewrite list_elem_of_omap. split.
  - intros ([text|s m o] & Hx & [=]). subst s. by exists m, o.
  - intros (msg & ok & Hx). by exists (Send sup msg ok).
Qed.

Lemma pass_resume_keeps l pre post dead log :
  l = pre ++ post → dead ⊆+ pre → dead = failed_targets log →
  pass_keeps l (pass_resume l (length pre) dead log).
Proof.
  intros -> Hdead ->. unfold pass_resume. destruct post as [|sup post].
  - rewrite app_nil_r, lookup_ge_None_2 by lia.
    destruct (remove_each_submseteq _ pre Hdead) as (sups' & Hr & Hp).
    by rewrite Hr.
  - by rewrite list_lookup_middle.
Qed.

Lemma pass_step_keeps msg ev base c c' :
  pass_inv base c → pass_keeps base c → not_disconnect ev = true →
  pass_step msg ev c = Some c' →
  pass_keeps (base ++ connected [ev]) c'.
Proof.
  destruct c as [l i dead sup log| |]; simpl; [|done..].
  intros (-> & pre & post & Hl & -> & Hlog & Hdead) -> Hev.
  destruct ev as [ok|ws|ws]; simpl; [| |done].
  - intros [= <-]. rewrite app_nil_r.
    replace (S (length pre)) with (length (pre ++ [sup]))
      by (rewrite length_app; simpl; lia).
    apply (pass_resume_keeps _ _ post).
    + by rewrite <- (assoc_L (++)).
    + destruct ok; [by apply submseteq_inserts_r|by apply submseteq_skips_r].
    + rewrite failed_targets_snoc. by destruct ok.
  - by intros [= <-].
Qed.

Lemma pass_run_keeps msg sch base c c' :
  pass_inv base c → pass_keeps base c →
  forallb not_disconnect sch = true →
  pass_run msg sch c = Some c' →
  pass_inv (base ++ connected sch) c' ∧ pass_keeps (base ++ connected sch) c'.
Proof.
  revert base c.
  induction sch as [|ev sch IH]; intros base c Hinv Hk Hall Hrun.
  - simpl in Hrun. injection Hrun as <-. by rewrite app_nil_r.
  - simpl in Hall, Hrun. apply andb_true_iff in Hall as [Hev Hsch].
    destruct (pass_step msg ev c) as [c1|] eqn:Hstep; [|done].
    rewrite connected_cons, (assoc_L (++)).
    apply (IH _ c1); [| |done|done].
    + by eapply pass_step_inv.
    + by eapply pass_step_keeps.
Qed.

(** A pass of a turn, or the alert pass that does not take place
    ([b = false]), when no supervisor disconnects in the meantime: it does
    not raise, and when it is over it has sent to every websocket of the
    list and to every one registered since, and leaves these less the
    ones whose send raised. *)
Lemma quiet_pass msg sch sups (b : bool) c :
  forallb not_disconnect sch = true →
  pass_run msg sch (if b then pass_start sups else Finished sups []) = Some c →
  match c with
  | Running _ _ _ _ _ => True
  | Finished sups' log =>
      sups ++ connected sch ≡ₚ failed_targets log ++ sups' ∧
      sups' `sublist_of` sups ++ connected sch ∧
      (b = true → omap send_target log = sups ++ connected sch)
  | Failed _ => False
  end.
Proof.
  intros Hall Hrun. destruct b.
  - assert (pass_inv sups (pass_start sups)) as Hinv.
    { apply (pass_resume_inv sups [] sups); [done|done|apply submseteq_nil_l]. }
    assert (pass_keeps sups (pass_start sups)) as Hk.
    { apply (pass_resume_keeps sups [] sups); [done|apply submseteq_nil_l|done]. }
    destruct (pass_run_keeps _ _ _ _ _ Hinv Hk Hall Hrun) as [Hinv' Hk'].
    destruct c as [l i dead sup log|sups' log|log]; simpl in *; [done| |done].
    by destruct Hinv'.
  - destruct sch; [|done]. injection Hrun as <-. simpl.
    rewrite app_nil_r. done.
Qed.

(** X2. A turn during which no other handler takes a websocket out of
    the list (no supervisor disconnects, no pass of another agent removes
    one) ends normally, whatever registers in the meantime and whatever
    the classifier and the sends answer, the score being a float: a
    [ValueError] at line 71 or 89 needs a removal by another handler while
    a pass is suspended.  The list the turn leaves is drawn, in order,
    from the list it found followed by the websockets registered during
    the two passes. *)
Theorem quiet_turn_ends_normally e agent_id data sch_alert sch_transcript
    sups r :
  forallb not_disconnect sch_alert = true →
  forallb not_disconnect sch_transcript = true →
  ws_agent_turn e agent_id data sch_alert sch_transcript sups = Some r →
  ∃ sups' log,
    r = Done sups' log ∧
    sups' `sublist_of` sups ++ connected sch_alert ++ connected sch_transcript.
Proof.
  intros Ha Ht Hr. destruct (decide (blank data)) as [Hb|Hnb].
  { rewrite (ws_agent_turn_blank _ _ _ _ _ _ _ Hb Hr).
    exists sups, []. split; [done|]. by apply sublist_inserts_r. }
  destruct (classify (emotion_pipe e (strip data))) as [label score] eqn:Hc.
  destruct (ws_agent_turn_text _ _ _ _ _ _ _ _ _ Hnb Hc Hr)
    as (c1 & H1 & Hcase).
  pose proof (quiet_pass _ _ _ _ _ Ha H1) as Hq1.
  destruct Hcase as [(log1 & -> & _)|(sups1 & log1 & c2 & -> & H2 & Hcase)];
    [done|].
  destruct Hq1 as (_ & Hs1 & _).
  pose proof (quiet_pass _ _ _ true _ Ht H2) as Hq2.
  destruct Hcase as [(log2 & -> & _)|(sups2 & log2 & -> & ->)]; [done|].
  destruct Hq2 as (_ & Hs2 & _).
  eexists _, _. split; [done|]. rewrite (assoc_L (++)).
  etrans; [exact Hs2|]. by apply sublist_app.
Qed.

Lemma quiet_turn_ends_normally_witness :
  ∃ sups' log,
    ws_agent_turn env_anger agent7 furious
      [SendReturns true; Connects 3; SendReturns false; SendReturns true]
      [SendReturns true; SendReturns true] [1; 2]
    = Some (Done sups' log).
Proof.
  assert (forallb not_disconnect
    [SendReturns true; Connects 3; SendReturns false; SendReturns true]
    = true) as Ha by reflexivity.
  assert (forallb not_disconnect [SendReturns true; SendReturns true] = true)
    as Ht by reflexivity.
  assert (ws_agent_turn env_anger agent7 furious
    [SendReturns true; Connects 3; SendReturns false; SendReturns true]
    [SendReturns true; SendReturns true] [1; 2]
    = Some (Done [1; 3]
              [Classify furious; Send 1 alert_furious true;
               Send 2 alert_furious false; Send 3 alert_furious true;
               Send 1 transcript_furious true;
               Send 3 transcript_furious true])) as Hr by reflexivity.
  destruct (quiet_turn_ends_normally _ _ _ _ _ _ _ Ha Ht Hr)
    as (sups' & log & Heq & _).
  exists sups', log. by rewrite Hr, Heq.
Defined.

(** X16. Delivery when no other handler takes a websocket out of the
    list during the turn.  On a text that is not blank, every supervisor
    that was in the list when the text arrived or that registered during
    one of the two passes, and to which no send of the turn raises, is
    sent the transcript with the pair the classifier block left, and is
    in the list the turn leaves; when the alert is due and the supervisor
    was there or registered during the alert pass, it is sent the alert as
    well. *)
Theorem quiet_turn_delivers e agent_id data sch_alert sch_transcript sups r
    sup label score :
  forallb not_disconnect sch_alert = true →
  forallb not_disconnect sch_transcript = true →
  ¬ blank data →
  classify (emotion_pipe e (strip data)) = (label, score) →
  ws_agent_turn e agent_id data sch_alert sch_transcript sups = Some r →
  sup ∈ sups ++ connected sch_alert ++ connected sch_transcript →
  (∀ msg, Send sup msg false ∉ log_of r) →
  Send sup (transcript_msg agent_id (strip data) label score
              (clock_transcript e)) true ∈ log_of r ∧
  (is_alert label score = true → sup ∈ sups ++ connected sch_alert →
   Send sup (make_alert agent_id (strip data) label score (clock_alert e))
     true ∈ log_of r) ∧
  ∃ sups' log, r = Done sups' log ∧ sup ∈ sups'.
Proof.
  intros Ha Ht Hnb Hc Hr Hin Hok.
  destruct (ws_agent_turn_text _ _ _ _ _ _ _ _ _ Hnb Hc Hr)
    as (c1 & H1 & Hcase).
  pose proof (quiet_pass _ _ _ _ _ Ha H1) as Hq1.
  pose proof (pass_run_known _ _ _ _ _
    (turn_start_known _ sups (is_alert label score)) H1) as (Hlog1 & _).
  destruct Hcase as [(log1 & -> & _)|(sups1 & log1 & c2 & -> & H2 & Hcase)];
    [done|].
  destruct Hq1 as (Hp1 & _ & Hsent1). simpl in Hlog1.
  pose proof (quiet_pass _ _ _ true _ Ht H2) as Hq2.
  pose proof (pass_run_known _ _ _ _ _ (pass_start_known _ sups1) H2)
    as (Hlog2 & _).
  destruct Hcase as [(log2 & -> & _)|(sups2 & log2 & -> & ->)]; [done|].
  destruct Hq2 as (Hp2 & _ & Hsent2). simpl in Hlog2, Hok |- *.
  assert (∀ msg, Send sup msg false ∉ log1) as Hok1.
  { intros msg H. apply (Hok msg). right. apply elem_of_app. by left. }
  assert (∀ msg, Send sup msg false ∉ log2) as Hok2.
  { intros msg H. apply (Hok msg). right. apply elem_of_app. by right. }
  assert (sup ∉ failed_targets log1) as Hnf1.
  { intros (msg & H)%failed_targets_elem. by apply (Hok1 msg). }
  assert (sup ∉ failed_targets log2) as Hnf2.
  { intros (msg & H)%failed_targets_elem. by apply (Hok2 msg). }
  assert (sup ∈ sups1 ++ connected sch_transcript) as Hin2.
  { rewrite (assoc_L (++)) in Hin.
    apply elem_of_app in Hin as [Hin|Hin]; apply elem_of_app; [left|by right].
    rewrite Hp1 in Hin. by apply elem_of_app in Hin as [?|?]. }
  split_and!.
  - rewrite <- (Hsent2 eq_refl) in Hin2.
    apply send_target_elem in Hin2 as (msg & ok & Hx).
    destruct (Hlog2 _ Hx) as (s & o & [= _ -> ->] & _).
    destruct o; [|by destruct (Hok2 _ Hx)].
    right. apply elem_of_app. by right.
  - intros Hal Hin1. rewrite Hal in Hsent1.
    rewrite <- (Hsent1 eq_refl) in Hin1.
    apply send_target_elem in Hin1 as (msg & ok & Hx).
    destruct (Hlog1 _ Hx) as (s & o & [= _ -> ->] & _).
    destruct o; [|by destruct (Hok1 _ Hx)].
    right. apply elem_of_app. by left.
  - eexists _, _. split; [done|].
    rewrite Hp2 in Hin2. by apply elem_of_app in Hin2 as [?|?].
Qed.

Lemma quiet_turn_delivers_witness :
  ws_agent_turn env_anger agent7 furious
    [SendReturns true; Connects 3; SendReturns false; SendReturns true]
    [SendReturns true; SendReturns true] [1; 2]
  = Some (Done [1; 3]
            [Classify furious; Send 1 alert_furious true;
             Send 2 alert_furious false; Send 3 alert_furious true;
             Send 1 transcript_furious true;
             Send 3 transcript_furious true]) ∧
  Send 3 transcript_furious true
  ∈ [Classify furious; Send 1 alert_furious true;
     Send 2 alert_furious false; Send 3 alert_furious true;
     Send 1 transcript_furious true; Send 3 transcript_furious true].
Proof.
  assert (forallb not_disconnect
    [SendReturns true; Connects 3; SendReturns false; SendReturns true]
    = true) as Ha by reflexivity.
  assert (forallb not_disconnect [SendReturns true; SendReturns true] = true)
    as Ht by reflexivity.
  assert (¬ blank furious) as Hnb by not_blank.
  assert (classify (emotion_pipe env_anger (strip furious))
          = (lit "anger", f0_85)) as Hc by reflexivity.
  assert (ws_agent_turn env_anger agent7 furious
    [SendReturns true; Connects 3; SendReturns false; SendReturns true]
    [SendReturns true; SendReturns true] [1; 2]
    = Some (Done [1; 3]
              [Classify furious; Send 1 alert_furious true;
               Send 2 alert_furious false; Send 3 alert_furious true;
               Send 1 transcript_furious true;
               Send 3 transcript_furious true])) as Hr by reflexivity.
  assert (3 ∈ [1; 2]
    ++ connected [SendReturns true; Connects 3; SendReturns false;
                  SendReturns true]
    ++ connected [SendReturns true; SendReturns true]) as Hin
    by (by apply (bool_decide_unpack _)).
  assert (∀ msg, Send 3 msg false
    ∉ log_of (Done [1; 3]
        [Classify furious; Send 1 alert_furious true;
         Send 2 alert_furious false; Send 3 alert_furious true;
         Send 1 transcript_furious true;
         Send 3 transcript_furious true])) as Hok.
  { intros msg H. simpl in H.
    repeat (apply elem_of_cons in H as [H|H]; [done|]).
    by apply elem_of_nil in H. }
  split; [exact Hr|].
  apply (proj1 (quiet_turn_delivers _ _ _ _ _ _ _ 3 _ _
                  Ha Ht Hnb Hc Hr Hin Hok)).
Defined.
